(** * SMTP client (lib/smtp/client.js): session driver and reply assembly

    A shallow embedding of [lib/smtp/client.js] and the properties of its
    command operations.  Strings are byte strings ([String.string]; the
    socket is read with [setEncoding("ascii")]), the capability object is a
    finite map from property names to values, and the promise-returning,
    event-driven operations are functions of an explicit [World]: the
    client object, the record of what was asked of the socket, and the
    reply packets still to be emitted by the packet handler. *)

From stdpp Require Import gmap strings list fin_maps.
From Stdlib Require Import Ascii String ZArith.

Open Scope string_scope.

(* Appending to a string that starts with known characters simplifies. *)
#[local] Arguments String.append !_ _ / : simpl nomatch.

(** ** JavaScript string and array helpers used by the client *)

Module Js.

(** [s.split(sep)] for a one-character separator: never empty, the empty
    string splits into one empty token, adjacent separators give empty
    tokens. *)
Fixpoint split (sep : ascii) (s : string) : list string :=
  match s with
  | EmptyString => [EmptyString]
  | String c s' =>
      if Ascii.eqb c sep then EmptyString :: split sep s'
      else match split sep s' with
           | [] => [String c EmptyString]
           | w :: ws => String c w :: ws
           end
  end.

(** [Array.prototype.join.call(items, sep)]. *)
Fixpoint join (sep : string) (items : list string) : string :=
  match items with
  | [] => EmptyString
  | [x] => x
  | x :: xs => x +:+ sep +:+ join sep xs
  end.

(** ASCII upper-casing, the canonicalisation of an [/i] regular
    expression on ASCII input. *)
Definition upcase (c : ascii) : ascii :=
  let n := nat_of_ascii c in
  if (97 <=? n)%nat && (n <=? 122)%nat then ascii_of_nat (n - 32) else c.

Fixpoint upcase_string (s : string) : string :=
  match s with
  | EmptyString => EmptyString
  | String c s' => String (upcase c) (upcase_string s')
  end.

(** [needle] occurs in [s] (an unanchored literal pattern). *)
Fixpoint contains (needle s : string) : bool :=
  String.prefix needle s ||
  match s with
  | EmptyString => false
  | String _ s' => contains needle s'
  end.

(** [/LITERAL/i.test(s)] for an upper-case letter-only literal. *)
Definition test_i (literal s : string) : bool :=
  contains literal (upcase_string s).

End Js.

(** ** Reply packets *)

(** The [status] of a packet is the three-digit reply code, in string or
    in number form; the client only ever compares it with a string literal
    through [==]. *)
Inductive Status :=
  | StatusStr (s : string)
  | StatusNum (n : Z).

(** The packet objects emitted by the packet handler: [packet.status] and
    the array [packet.data] of text lines. *)
Module Packet.
Record t := mk { status : Status; data : list string }.
End Packet.

(** Decimal value of a digit-only literal. *)
Fixpoint decimal (acc : Z) (s : string) : option Z :=
  match s with
  | EmptyString => Some acc
  | String c s' =>
      let n := nat_of_ascii c in
      if (48 <=? n)%nat && (n <=? 57)%nat
      then decimal (10 * acc + Z.of_nat (n - 48)) s'
      else None
  end.

(** [status == literal] for the digit-only literals of the client: string
    against string compares the characters, number against string compares
    with the literal's numeric value. *)
Definition loose_eq (st : Status) (literal : string) : bool :=
  match st with
  | StatusStr s => String.eqb s literal
  | StatusNum n =>
      match decimal 0 literal with
      | Some m => Z.eqb n m
      | None => false
      end
  end.

(** ** Capabilities *)

(** A capability value: the flag [true] or a string. *)
Inductive CapValue :=
  | CapTrue
  | CapText (s : string).

(** [obj[key] = value] on a plain object, as a map of own properties.
    Assigning a primitive to [__proto__] creates no property. *)
Definition set_property (key : string) (value : CapValue)
    (obj : gmap string CapValue) : gmap string CapValue :=
  if String.eqb key "__proto__" then obj else <[key := value]> obj.

(** [item[0]] of a token array. *)
Definition item0 (item : list string) : string :=
  match item with
  | [] => "undefined"
  | k :: _ => k
  end.

(** Body of the loop of [parseCapabilities] for one line [data[i]]. *)
Definition parseCapability (capabilities : gmap string CapValue)
    (line : string) : gmap string CapValue :=
  let item := Js.split " " line in
  set_property (item0 item)
    (if (1 <? List.length item)%nat then CapText (Js.join " " item) else CapTrue)
    capabilities.

(** [Client.prototype.parseCapabilities]: the loop runs over
    [data[1] .. data[data.length-1]] and assigns into the existing
    [this.capabilities] object. *)
Definition parseCapabilities (capabilities : gmap string CapValue)
    (data : list string) : gmap string CapValue :=
  foldl parseCapability capabilities (drop 1 data).

(** ** The world of one client *)

(** What the client asked of its socket: the chunks passed to
    [socket.write], in order, and whether [socket.end()] was called. *)
Record Socket := mkSocket { written : list string; ended : bool }.

(** The return value of one [socket.write]: [true] when the data was
    flushed, [false] when it was queued, and in that case whether the
    ['drain'] event ever fires afterwards. *)
Inductive Flow :=
  | Flushed
  | Queued (drains : bool).

(** The fields of a [Client] object.  [socket] is [null] until [connect];
    [host], [port], [connected] and [waiting] are not set by the
    constructor: an unset [host] or [port] is [None], and an unset
    [connected] or [waiting] (a falsy [undefined]) is [false]. *)
Record Client := mkClient {
  socket : option Socket;
  esmtp : bool;
  capabilities : gmap string CapValue;
  debug : bool;
  port : option Z;
  host : option string;
  connected : bool;
  waiting : bool
}.

(** [new Client()] *)
Definition new_Client : Client :=
  {| socket := None; esmtp := false; capabilities := ∅; debug := true;
     port := None; host := None; connected := false; waiting := false |}.

(** The client together with its environment: [inbox] holds the packets
    the packet handler emits from now on, each one after the command that
    awaits it was written; [flow] holds the transport's answers to the
    coming [socket.write] calls ([Flushed] once the list is used up). *)
Record World := mkWorld {
  client : Client;
  inbox : list Packet.t;
  flow : list Flow
}.

Definition set_client (f : Client → Client) (w : World) : World :=
  {| client := f (client w); inbox := inbox w; flow := flow w |}.

Definition with_socket (s : option Socket) (c : Client) : Client :=
  {| socket := s; esmtp := esmtp c; capabilities := capabilities c;
     debug := debug c; port := port c; host := host c;
     connected := connected c; waiting := waiting c |}.

Definition with_esmtp (b : bool) (c : Client) : Client :=
  {| socket := socket c; esmtp := b; capabilities := capabilities c;
     debug := debug c; port := port c; host := host c;
     connected := connected c; waiting := waiting c |}.

Definition with_capabilities (m : gmap string CapValue) (c : Client) : Client :=
  {| socket := socket c; esmtp := esmtp c; capabilities := m;
     debug := debug c; port := port c; host := host c;
     connected := connected c; waiting := waiting c |}.

Definition with_endpoint (p : option Z) (h : option string) (c : Client) : Client :=
  {| socket := socket c; esmtp := esmtp c; capabilities := capabilities c;
     debug := debug c; port := p; host := h;
     connected := connected c; waiting := waiting c |}.

Definition with_connected (b : bool) (c : Client) : Client :=
  {| socket := socket c; esmtp := esmtp c; capabilities := capabilities c;
     debug := debug c; port := port c; host := host c;
     connected := b; waiting := waiting c |}.

Definition with_waiting (b : bool) (c : Client) : Client :=
  {| socket := socket c; esmtp := esmtp c; capabilities := capabilities c;
     debug := debug c; port := port c; host := host c;
     connected := connected c; waiting := b |}.

(** ** Operations and promises *)

(** How a call of an operation ends: its promise fires [emitSuccess] with
    a value, fires [emitError] with a packet or with no argument, never
    fires ([Pending]), or the call throws before returning a promise
    (a method call on the [null] socket). *)
Inductive Outcome (A : Type) :=
  | Success (a : A)
  | Failure (e : option Packet.t)
  | Pending
  | Thrown.
Arguments Success {A} a.
Arguments Failure {A} e.
Arguments Pending {A}.
Arguments Thrown {A}.

Definition Op (A : Type) : Type := World → Outcome A * World.

Definition emitSuccess {A} (a : A) : Op A := λ w, (Success a, w).
Definition emitError {A} (e : option Packet.t) : Op A := λ w, (Failure e, w).

(** A rejection or event nobody listens to: nothing fires. *)
Definition unheard {A} : Op A := λ w, (Pending, w).

(** [m.addCallback(cb).addErrback(eb)], where the handlers settle the
    promise of the enclosing operation. *)
Definition callbacks {A B} (m : Op A) (cb : A → Op B)
    (eb : option Packet.t → Op B) : Op B :=
  λ w, match m w with
       | (Success a, w') => cb a w'
       | (Failure e, w') => eb e w'
       | (Pending, w') => (Pending, w')
       | (Thrown, w') => (Thrown, w')
       end.

(** [m.addCallback(cb)] with no errback. *)
Definition addCallback {A B} (m : Op A) (cb : A → Op B) : Op B :=
  callbacks m cb (λ _, unheard).

(** Statement sequencing, with stdpp's notations [x ← m; k] and [m;; k]. *)
#[global] Instance Op_ret : MRet Op := λ A, @emitSuccess A.
#[global] Instance Op_bind : MBind Op := λ A B k m, callbacks m k emitError.

(** An assignment to fields of [this]. *)
Definition assign (f : Client → Client) : Op unit :=
  λ w, (Success tt, set_client f w).

(** The socket after one more chunk was written to it. *)
Definition sent (chunk : string) (s : Socket) : Socket :=
  {| written := written s ++ [chunk]; ended := ended s |}.

(** [this.socket.write(chunk)]: a [TypeError] on the [null] socket, else
    the chunk is handed to the transport, whose answer is returned. *)
Definition socket_write (chunk : string) : Op Flow :=
  λ w, match socket (client w) with
       | None => (Thrown, w)
       | Some s =>
           (Success (hd Flushed (flow w)),
            {| client := with_socket (Some (sent chunk s)) (client w);
               inbox := inbox w;
               flow := tl (flow w) |})
       end.

(** [this.socket.end()] *)
Definition socket_end : Op unit :=
  λ w, match socket (client w) with
       | None => (Thrown, w)
       | Some s =>
           (Success tt,
            set_client (with_socket (Some {| written := written s; ended := true |})) w)
       end.

(** A one-shot ["packet"] listener: it fires on the next packet emitted
    and removes itself; with no further packet it never fires. *)
Definition next_packet : Op Packet.t :=
  λ w, match inbox w with
       | [] => (Pending, w)
       | p :: rest =>
           (Success p, {| client := client w; inbox := rest; flow := flow w |})
       end.

Definition CRLF : string := String "013" (String "010" EmptyString).

(** [Client.prototype.writeline] (console output left out). *)
Definition writeline (line : string) : Op unit :=
  socket_write (line +:+ CRLF);; mret tt.

(** [Client.prototype.send]: [arguments] joined by single spaces.  The
    flag [waiting] is cleared by the listener once the synchronous
    callbacks of the promise have run; none of them reads or writes it. *)
Definition send (arguments : list string) : Op Packet.t :=
  assign (with_waiting true);;
  writeline (Js.join " " arguments);;
  packet ← next_packet;
  assign (with_waiting false);;
  mret packet.

(** [Client.prototype.get], the legacy form of [send]: the line is
    written as given and the next packet is handed to [callback], a
    function that returns normally, here a change of the world; [waiting]
    is cleared after the callback has run. *)
Definition get (line : string) (callback : Packet.t → World → World)
    : Op unit :=
  assign (with_waiting true);;
  writeline line;;
  packet ← next_packet;
  (λ w, (Success tt, callback packet w));;
  assign (with_waiting false).

(** An element of [arguments] that is [undefined] joins as the empty
    string. *)
Definition joined (o : option string) : string := default EmptyString o.

(** [Client.prototype.helo] *)
Definition helo : Op Packet.t :=
  λ w, addCallback (send ["HELO"; joined (host (client w))]) (λ packet,
    if loose_eq (Packet.status packet) "250" then
      assign (λ c, with_capabilities (parseCapabilities (capabilities c) (Packet.data packet)) c);;
      assign (with_connected true);;
      emitSuccess packet
    else
      emitError (Some packet)) w.

(** [Client.prototype.ehlo] *)
Definition ehlo : Op Packet.t :=
  λ w, addCallback (send ["EHLO"; joined (host (client w))]) (λ packet,
    if loose_eq (Packet.status packet) "250" then
      assign (λ c, with_capabilities (parseCapabilities (capabilities c) (Packet.data packet)) c);;
      assign (with_connected true);;
      emitSuccess packet
    else
      emitError (Some packet)) w.

(** [Client.prototype.handshake] *)
Definition handshake : Op Packet.t :=
  λ w, if esmtp (client w) then ehlo w else helo w.

(** [Client.prototype.connect]: a fresh socket, then the one-shot listener
    for the greeting.  [packet.data] is an array; the regular expression
    tests its string form, the lines joined by commas.  The handshake has
    a callback only. *)
Definition connect (port' : Z) (host' : string) : Op Packet.t :=
  assign (with_endpoint (Some port') (Some host'));;
  assign (with_socket (Some {| written := []; ended := false |}));;
  packet ← next_packet;
  if loose_eq (Packet.status packet) "220" then
    (if Js.test_i "ESMTP" (Js.join "," (Packet.data packet))
     then assign (with_esmtp true) else mret tt);;
    addCallback handshake (λ _, emitSuccess packet)
  else
    emitError (Some packet).

(** [Client.prototype.mail] *)
Definition mail (address : string) : Op Packet.t :=
  let address := "<" +:+ address +:+ ">" in
  addCallback (send ["MAIL"; "FROM:"; address]) (λ packet,
    if loose_eq (Packet.status packet) "250" then emitSuccess packet
    else emitError (Some packet)).

(** [Client.prototype.rcpt] *)
Definition rcpt (address : string) : Op Packet.t :=
  let address := "<" +:+ address +:+ ">" in
  addCallback (send ["RCPT"; "TO:"; address]) (λ packet,
    if loose_eq (Packet.status packet) "250" then emitSuccess packet
    else emitError (Some packet)).

(** [Client.prototype.beginData] *)
Definition beginData : Op unit :=
  addCallback (send ["DATA"]) (λ packet,
    if loose_eq (Packet.status packet) "354" then emitSuccess tt
    else emitError (Some packet)).

(** [Client.prototype.sendData]: the promise fires on ['drain'] when the
    write was queued, on the next tick otherwise. *)
Definition sendData (payload : string) : Op unit :=
  answer ← socket_write payload;
  match answer with
  | Queued drains => if drains then emitSuccess tt else unheard
  | Flushed => emitSuccess tt
  end.

(** [Client.prototype.endData] *)
Definition endData : Op unit :=
  addCallback (send [CRLF +:+ "."]) (λ packet,
    if loose_eq (Packet.status packet) "250" then emitSuccess tt
    else emitError (Some packet)).

(** [Client.prototype.data] *)
Definition data (payload : string) : Op unit :=
  callbacks beginData
    (λ _, addCallback (sendData payload)
       (λ _, callbacks endData
          (λ _, emitSuccess tt)
          (λ packet, emitError packet)))
    (λ e, emitError e).

(** [Client.prototype.quit] *)
Definition quit : Op unit :=
  addCallback (send ["QUIT"]) (λ packet,
    if loose_eq (Packet.status packet) "221" then
      socket_end;; emitSuccess tt
    else
      emitError None).

(** ** The reply assembler ([./packetHandler], not part of this source) *)

Module Assembler.

Definition CR : ascii := "013".
Definition LF : ascii := "010".

(** Modelled from the spec: one more character in front of framed text;
    it belongs to the first complete line or, when there is none, to the
    unterminated suffix. *)
Definition push (c : ascii) (framed : list string * string)
    : list string * string :=
  match framed with
  | ([], r) => ([], String c r)
  | (l :: ls, r) => (String c l :: ls, r)
  end.

(** Modelled from the spec: the line framing of the reply assembler of
    [./packetHandler], which is absent.  Lines are delimited by CRLF; the
    result is the complete lines of [s], in order, and the unterminated
    suffix that the assembler retains. *)
Fixpoint frame (s : string) : list string * string :=
  match s with
  | EmptyString => ([], EmptyString)
  | String c s' =>
      match s' with
      | String d s'' =>
          if Ascii.eqb c CR && Ascii.eqb d LF
          then let '(ls, r) := frame s'' in (EmptyString :: ls, r)
          else push c (frame s')
      | EmptyString => push c (frame s')
      end
  end.

Definition is_digit (c : ascii) : bool :=
  let n := nat_of_ascii c in (48 <=? n)%nat && (n <=? 57)%nat.

(** Modelled from the spec: the reply-line grammar of the absent
    assembler.  A line is three status digits followed by [-]
    (continuation), or by a space or the end of the line (final line); the
    result is the code, whether the line is final, and the text after the
    separator.  Any other line is malformed. *)
Definition parse_line (l : string) : option (string * bool * string) :=
  match l with
  | String a (String b (String c rest)) =>
      if is_digit a && is_digit b && is_digit c then
        let code := String a (String b (String c EmptyString)) in
        match rest with
        | EmptyString => Some (code, true, EmptyString)
        | String sep text =>
            if Ascii.eqb sep "-" then Some (code, false, text)
            else if Ascii.eqb sep " " then Some (code, true, text)
            else None
        end
      else None
  | _ => None
  end.

(** Modelled from the spec: the reply under construction in the absent
    assembler, its established status, once a well-formed line was seen,
    and its lines so far. *)
Record partial := mkPartial {
  established : option string;
  lines : list string
}.

(** Modelled from the spec: what the absent assembler does with one
    complete line.  A final line whose code agrees with the established
    status completes the reply, which is emitted with the stripped lines
    in the order received; a continuation line is added to the reply; a
    malformed line, or one whose code differs from the established status,
    is included as received and completes nothing. *)
Definition receive_line (r : partial) (l : string)
    : partial * option Packet.t :=
  let keep status' line :=
    ({| established := status'; lines := lines r ++ [line] |}, None) in
  match parse_line l with
  | Some (code, final, text) =>
      if match established r with
         | Some code' => String.eqb code code'
         | None => true
         end
      then
        if final then
          ({| established := None; lines := [] |},
           Some (Packet.mk (StatusStr code) (lines r ++ [text])))
        else keep (Some code) text
      else keep (established r) l
  | None => keep (established r) l
  end.

(** Modelled from the spec: complete lines are processed in the order
    received and the completed packets are emitted in that order. *)
Fixpoint receive_lines (r : partial) (ls : list string)
    : partial * list Packet.t :=
  match ls with
  | [] => (r, [])
  | l :: ls' =>
      let '(r', emitted) := receive_line r l in
      let '(r'', out) := receive_lines r' ls' in
      (r'', (option_list emitted ++ out)%list)
  end.

(** Modelled from the spec: the state the absent assembler owns, the
    retained unterminated suffix and the reply under construction. *)
Record state := mkState {
  buffer : string;
  reply_so_far : partial
}.

Definition init : state :=
  {| buffer := EmptyString;
     reply_so_far := {| established := None; lines := [] |} |}.

(** Modelled from the spec: [feed(bytes)] of the absent assembler.  The
    chunk is appended to the retained suffix, the complete lines are
    processed in order, the new unterminated suffix is retained; the
    result is the new state and the packets emitted by this chunk. *)
Definition feed (st : state) (chunk : string) : state * list Packet.t :=
  let '(ls, rest) := frame (buffer st +:+ chunk) in
  let '(r, out) := receive_lines (reply_so_far st) ls in
  ({| buffer := rest; reply_so_far := r |}, out).

(** Feeding a sequence of chunks, collecting the packets in the order
    emitted. *)
Fixpoint feed_all (st : state) (chunks : list string)
    : state * list Packet.t :=
  match chunks with
  | [] => (st, [])
  | chunk :: chunks' =>
      let '(st', out) := feed st chunk in
      let '(st'', out') := feed_all st' chunks' in
      (st'', (out ++ out')%list)
  end.

(** The byte stream of a sequence of lines, each terminated by CRLF. *)
Fixpoint wire (ls : list string) : string :=
  match ls with
  | [] => EmptyString
  | l :: ls' => l +:+ CRLF +:+ wire ls'
  end.

(** The concatenation of the chunks. *)
Fixpoint stream (chunks : list string) : string :=
  match chunks with
  | [] => EmptyString
  | chunk :: chunks' => chunk +:+ stream chunks'
  end.

End Assembler.

(** ** Sample sessions *)

(** A client as [connect] leaves it once the socket exists, with its
    environment: the replies to come and a transport that flushes every
    write. *)
Definition session (h : string) (replies : list Packet.t) : World :=
  {| client := with_socket (Some {| written := []; ended := false |})
                 (with_endpoint (Some 25%Z) (Some h) new_Client);
     inbox := replies; flow := [] |}.

(** A reply with its status in string form. *)
Definition reply (code : string) (lines : list string) : Packet.t :=
  Packet.mk (StatusStr code) lines.

(** A newly constructed client, not yet connected, with the packets the
    server is going to send. *)
Definition fresh (replies : list Packet.t) : World :=
  {| client := new_Client; inbox := replies; flow := [] |}.

(** A session after a successful handshake, with the reply to QUIT to
    come, and the same session once [quit] has run. *)
Definition greeted : World :=
  {| client :=
       {| socket := Some {| written := ["EHLO client.test" +:+ CRLF]; ended := false |};
          esmtp := true;
          capabilities := {[ "8BITMIME" := CapTrue ]};
          debug := true; port := Some 25%Z; host := Some "client.test";
          connected := true; waiting := false |};
     inbox := [reply "221" ["Bye"]]; flow := [] |}.

Definition greeted_closed : World :=
  {| client :=
       {| socket := Some {| written := ["EHLO client.test" +:+ CRLF; "QUIT" +:+ CRLF];
                            ended := true |};
          esmtp := true;
          capabilities := {[ "8BITMIME" := CapTrue ]};
          debug := true; port := Some 25%Z; host := Some "client.test";
          connected := true; waiting := false |};
     inbox := []; flow := [] |}.

(** ** Vocabulary of the statements *)

(** The fields of the client that describe the session, as opposed to the
    socket and the flag [waiting] of the command in flight. *)
Definition session_fields (c : Client)
    : bool * gmap string CapValue * bool * option string * option Z * bool :=
  (esmtp c, capabilities c, connected c, host c, port c, debug c).

(** An operation that leaves the session fields alone, whatever the world
    and however it ends. *)
Definition keeps_session {A} (m : Op A) : Prop :=
  ∀ w, session_fields (client (m w).2) = session_fields (client w).

(** From [c] to [c'] nothing of the session was taken back: a raised flag
    is still raised and every capability recorded is still recorded. *)
Definition grown (c c' : Client) : Prop :=
  (esmtp c = true → esmtp c' = true)
  ∧ (connected c = true → connected c' = true)
  ∧ dom (capabilities c) ⊆ dom (capabilities c').

(** An operation that only ever adds to the session. *)
Definition only_adds {A} (m : Op A) : Prop :=
  ∀ w, grown (client w) (client (m w).2).

(** The number of occurrences of a character in a string. *)
Fixpoint occurrences (c : ascii) (s : string) : nat :=
  match s with
  | EmptyString => 0
  | String d s' => (if Ascii.eqb d c then 1 else 0) + occurrences c s'
  end.

(** * Properties *)

(** ** Splitting and joining *)

Lemma append_assoc (s1 s2 s3 : string) :
  (s1 +:+ s2) +:+ s3 = s1 +:+ s2 +:+ s3.
Proof. induction s1 as [|c s1 IH]; simpl; [done|]. by rewrite IH. Qed.

Lemma append_empty_r (s : string) : s +:+ EmptyString = s.
Proof. induction s as [|c s IH]; simpl; [done|]. by rewrite IH. Qed.

Lemma split_not_nil sep s : Js.split sep s ≠ [].
Proof. destruct s as [|c s]; simpl; [done|]. by repeat case_match. Qed.

(** Joining the tokens of a line with the separator it was split on gives
    the line back: [item.join(" ")] is the whole line. *)
Lemma join_split sep s :
  Js.join (String sep EmptyString) (Js.split sep s) = s.
Proof.
  induction s as [|c s IH]; simpl; [done|].
  destruct (Ascii.eqb_spec c sep) as [->|Hne].
  - destruct (Js.split sep s) as [|w ws] eqn:E; [by apply split_not_nil in E|].
    simpl in *. by rewrite IH.
  - destruct (Js.split sep s) as [|w ws] eqn:E; [by apply split_not_nil in E|].
    destruct ws; simpl in *; by rewrite <- IH.
Qed.

(** ** Capabilities *)

Lemma set_property_union k v (m caps : gmap string CapValue) :
  set_property k v (m ∪ caps) = set_property k v m ∪ caps.
Proof. unfold set_property. case_match; [done|]. by rewrite insert_union_l. Qed.

Lemma foldl_parseCapability_union ls (m caps : gmap string CapValue) :
  foldl parseCapability (m ∪ caps) ls = foldl parseCapability m ls ∪ caps.
Proof.
  revert m. induction ls as [|l ls IH]; intros m; simpl; [done|].
  unfold parseCapability at 2. by rewrite set_property_union, IH.
Qed.

(** Parsing into an object that already has entries gives the entries of
    the reply laid over the old ones. *)
Lemma parseCapabilities_union (caps : gmap string CapValue) lines :
  parseCapabilities caps lines = parseCapabilities ∅ lines ∪ caps.
Proof.
  unfold parseCapabilities.
  rewrite <- foldl_parseCapability_union. by rewrite (left_id_L ∅ (∪)).
Qed.

Lemma parseCapabilities_snoc (caps : gmap string CapValue) first rest line :
  parseCapabilities caps (first :: rest ++ [line])
  = parseCapability (parseCapabilities caps (first :: rest)) line.
Proof.
  unfold parseCapabilities.
  change (drop 1 (first :: rest ++ [line])) with (rest ++ [line])%list.
  change (drop 1 (first :: rest)) with rest.
  by rewrite foldl_app.
Qed.

(** C1 (as amended): capability parsing processes every line of the reply
    except the first, in order; each such line is split on spaces, its
    first token is the property assigned and the value assigned is the
    whole line, keyword included, when the line has more than one token,
    else the flag [true].  On a client without capabilities the reply
    lines ["mail.example.com"; "SIZE 10485760"; "8BITMIME"] yield exactly
    SIZE: "SIZE 10485760" and 8BITMIME: true. *)
Theorem parseCapabilities_whole_line :
  (∀ (caps : gmap string CapValue), parseCapabilities caps [] = caps)
  ∧ (∀ (caps : gmap string CapValue) first,
       parseCapabilities caps [first] = caps)
  ∧ (∀ (caps : gmap string CapValue) first rest line,
       parseCapabilities caps (first :: rest ++ [line])
       = set_property (item0 (Js.split " " line))
           (if (1 <? List.length (Js.split " " line))%nat
            then CapText line else CapTrue)
           (parseCapabilities caps (first :: rest)))
  ∧ parseCapabilities ∅ ["mail.example.com"; "SIZE 10485760"; "8BITMIME"]
    = {[ "SIZE" := CapText "SIZE 10485760"; "8BITMIME" := CapTrue ]}.
Proof.
  split; [done|]. split; [done|]. split.
  - intros caps first rest line. rewrite parseCapabilities_snoc.
    unfold parseCapability. by rewrite (join_split " " line).
  - vm_compute. reflexivity.
Qed.

(** C1, the claim as stated fails: for the reply lines of the example the
    value stored under SIZE is the whole line, not the remainder after the
    keyword, so the mapping is not SIZE: "10485760", 8BITMIME: true. *)
Lemma parseCapabilities_not_remainder :
  parseCapabilities ∅ ["mail.example.com"; "SIZE 10485760"; "8BITMIME"]
    ≠ {[ "SIZE" := CapText "10485760"; "8BITMIME" := CapTrue ]}
  ∧ parseCapabilities ∅ ["mail.example.com"; "SIZE 10485760"; "8BITMIME"]
      !! "SIZE" = Some (CapText "SIZE 10485760").
Proof.
  split; [|by vm_compute].
  intros H. apply (f_equal (.!! "SIZE")) in H. vm_compute in H. discriminate.
Qed.

(** ** Running the operations *)

Ltac run_op :=
  unfold addCallback, callbacks, mbind, Op_bind, mret, Op_ret, callbacks,
    assign, emitSuccess, emitError, unheard, set_client in *;
  simpl in *.

Ltac open_world w :=
  let c := fresh "c" in
  destruct w as [c ? ?]; destruct c; simpl in *; simplify_eq.

(** The comparison [status == literal] on the literals of the client. *)
Lemma loose_eq_code st :
  (loose_eq st "220" = true ↔ st = StatusStr "220" ∨ st = StatusNum 220)
  ∧ (loose_eq st "221" = true ↔ st = StatusStr "221" ∨ st = StatusNum 221)
  ∧ (loose_eq st "250" = true ↔ st = StatusStr "250" ∨ st = StatusNum 250)
  ∧ (loose_eq st "354" = true ↔ st = StatusStr "354" ∨ st = StatusNum 354).
Proof.
  destruct st as [s|n]; simpl.
  - rewrite !String.eqb_eq.
    repeat split; (intros ->; by left) || (intros [?|?]; congruence).
  - rewrite !Z.eqb_eq.
    repeat split; (intros ->; by right) || (intros [?|?]; by simplify_eq).
Qed.

(** A command sent on a connected client, with a reply to come: the line
    and CRLF are written as one chunk, the reply is consumed, and
    [waiting] is false again. *)
Lemma send_run w s p rest arguments :
  socket (client w) = Some s → inbox w = p :: rest →
  send arguments w
  = (Success p,
     {| client :=
          with_waiting false
            (with_socket (Some (sent (Js.join " " arguments +:+ CRLF) s)) (client w));
        inbox := rest; flow := tl (flow w) |}).
Proof. intros Hs Hi. open_world w. unfold send, writeline, socket_write, next_packet. by run_op. Qed.

(** Without a socket the call throws, before anything is written. *)
Lemma send_null w arguments :
  socket (client w) = None →
  send arguments w = (Thrown, set_client (with_waiting true) w).
Proof. intros Hs. open_world w. unfold send, writeline, socket_write. by run_op. Qed.

(** With no reply the promise of [send] never fires. *)
Lemma send_silent w s arguments :
  socket (client w) = Some s → inbox w = [] →
  send arguments w
  = (Pending,
     {| client :=
          with_waiting true
            (with_socket (Some (sent (Js.join " " arguments +:+ CRLF) s)) (client w));
        inbox := []; flow := tl (flow w) |}).
Proof. intros Hs Hi. open_world w. unfold send, writeline, socket_write, next_packet. by run_op. Qed.

(** ** MAIL *)

(** C3: on a client with a socket, [mail address] writes exactly the line
    MAIL FROM: <address> followed by CRLF; its promise succeeds if and
    only if the status of the next reply packet is 250, and on any other
    status it fails with that packet, status and lines. *)
Theorem mail_writes_and_resolves w s p rest address :
  socket (client w) = Some s → inbox w = p :: rest →
  socket (client (mail address w).2)
    = Some {| written := written s ++ ["MAIL FROM: <" +:+ address +:+ ">" +:+ CRLF];
              ended := ended s |}
  ∧ ((mail address w).1 = Success p ↔ loose_eq (Packet.status p) "250" = true)
  ∧ (loose_eq (Packet.status p) "250" = false →
     (mail address w).1 = Failure (Some p)).
Proof.
  intros Hs Hi. unfold mail, addCallback, callbacks.
  rewrite (send_run _ _ _ _ _ Hs Hi).
  unfold sent; simpl. rewrite append_assoc.
  destruct (loose_eq (Packet.status p) "250"); simpl;
    repeat split; intros; congruence.
Qed.

Lemma mail_writes_and_resolves_witness :
  socket (client (mail "user@example.com" (session "client.test" [reply "250" ["OK"]])).2)
    = Some {| written := ["MAIL FROM: <user@example.com>" +:+ CRLF]; ended := false |}
  ∧ (mail "user@example.com" (session "client.test" [reply "250" ["OK"]])).1
    = Success (reply "250" ["OK"]).
Proof.
  pose proof (mail_writes_and_resolves
    (session "client.test" [reply "250" ["OK"]])
    {| written := []; ended := false |} (reply "250" ["OK"]) []
    "user@example.com" eq_refl eq_refl) as (Hw & Hok & _).
  split; [exact Hw | apply Hok; reflexivity].
Defined.

(** ** QUIT *)

Lemma quit_run w s p rest :
  socket (client w) = Some s → inbox w = p :: rest →
  quit w
  = (if loose_eq (Packet.status p) "221" then Success tt else Failure None,
     {| client :=
          with_waiting false
            (with_socket
               (Some {| written := written s ++ ["QUIT" +:+ CRLF];
                        ended := ended s || loose_eq (Packet.status p) "221" |})
               (client w));
        inbox := rest; flow := tl (flow w) |}).
Proof.
  intros Hs Hi. unfold quit, addCallback, callbacks.
  rewrite (send_run _ _ _ _ _ Hs Hi).
  destruct (loose_eq (Packet.status p) "221"); unfold socket_end; run_op.
  - by rewrite orb_true_r.
  - by rewrite orb_false_r.
Qed.

(** C4: for every reply packet answering QUIT on an open transport,
    [quit] closes the transport if and only if the reply status is 221,
    and its promise succeeds in exactly that case; on any other status the
    transport stays open and the promise fails. *)
Theorem quit_closes_iff_221 w s p rest :
  socket (client w) = Some s → ended s = false → inbox w = p :: rest →
  (∃ s', socket (client (quit w).2) = Some s'
         ∧ (ended s' = true ↔ loose_eq (Packet.status p) "221" = true))
  ∧ ((quit w).1 = Success tt ↔ loose_eq (Packet.status p) "221" = true)
  ∧ (loose_eq (Packet.status p) "221" = false →
     (∃ e, (quit w).1 = Failure e)
     ∧ ∃ s', socket (client (quit w).2) = Some s' ∧ ended s' = false).
Proof.
  intros Hs He Hi. rewrite (quit_run _ _ _ _ Hs Hi). simpl. rewrite He.
  destruct (loose_eq (Packet.status p) "221"); simpl; repeat split;
    intros; eauto; congruence.
Qed.

Lemma quit_closes_iff_221_witness :
  (∃ s', socket (client (quit (session "client.test" [reply "221" ["Bye"]])).2) = Some s'
         ∧ ended s' = true)
  ∧ (quit (session "client.test" [reply "221" ["Bye"]])).1 = Success tt.
Proof.
  pose proof (quit_closes_iff_221
    (session "client.test" [reply "221" ["Bye"]])
    {| written := []; ended := false |} (reply "221" ["Bye"]) []
    eq_refl eq_refl eq_refl) as ((s' & Hs' & Hended) & Hok & _).
  split; [exists s'; split; [exact Hs' | apply Hended; reflexivity]
         | apply Hok; reflexivity].
Defined.

(** C10: a successful [quit] (reply status 221) closes the transport and
    leaves the session fields as they were: [esmtp], [capabilities] and
    [connected], as well as [host], [port] and [debug]; in particular
    [connected] is still true if the last handshake set it. *)
Theorem quit_keeps_session w w' :
  quit w = (Success tt, w') →
  esmtp (client w') = esmtp (client w)
  ∧ capabilities (client w') = capabilities (client w)
  ∧ connected (client w') = connected (client w)
  ∧ (host (client w'), port (client w'), debug (client w'))
    = (host (client w), port (client w), debug (client w))
  ∧ (connected (client w) = true → connected (client w') = true)
  ∧ ∃ s p, socket (client w) = Some s
      ∧ head (inbox w) = Some p ∧ loose_eq (Packet.status p) "221" = true
      ∧ socket (client w')
        = Some {| written := written s ++ ["QUIT" +:+ CRLF]; ended := true |}.
Proof.
  intros Hq.
  destruct (socket (client w)) as [s|] eqn:Hs.
  2:{ unfold quit, addCallback, callbacks in Hq.
      by rewrite (send_null _ _ Hs) in Hq. }
  destruct (inbox w) as [|p rest] eqn:Hi.
  { unfold quit, addCallback, callbacks in Hq.
    by rewrite (send_silent _ _ _ Hs Hi) in Hq. }
  rewrite (quit_run _ _ _ _ Hs Hi) in Hq.
  destruct (loose_eq (Packet.status p) "221") eqn:Hp; [|done].
  injection Hq as <-. simpl. rewrite orb_true_r.
  repeat split; [done|]. by exists s, p.
Qed.

Lemma quit_keeps_session_witness :
  quit greeted = (Success tt, greeted_closed)
  ∧ connected (client greeted_closed) = true
  ∧ capabilities (client greeted_closed) = {[ "8BITMIME" := CapTrue ]}.
Proof.
  assert (quit greeted = (Success tt, greeted_closed)) as Hq
    by (vm_compute; reflexivity).
  destruct (quit_keeps_session greeted greeted_closed Hq)
    as (_ & Hcaps & _ & _ & Hconn & _).
  split; [exact Hq|]. split; [apply Hconn; reflexivity | exact Hcaps].
Defined.

(** C5, at QUIT: the reply 500 to QUIT makes the promise of [quit] fail
    with no argument, whereas the same reply to MAIL fails with the packet
    itself. *)
Theorem quit_failure_carries_no_packet :
  (quit (session "client.test" [reply "500" ["Syntax error"]])).1 = Failure None
  ∧ (mail "user@example.com" (session "client.test" [reply "500" ["Syntax error"]])).1
    = Failure (Some (reply "500" ["Syntax error"])).
Proof. split; reflexivity. Qed.

(** ** HELO and EHLO *)

(** The world after a handshake command [line] met the reply [p]. *)
Lemma helo_run w s p rest :
  socket (client w) = Some s → inbox w = p :: rest →
  helo w
  = (if loose_eq (Packet.status p) "250" then Success p else Failure (Some p),
     {| client :=
          {| socket := Some (sent ("HELO " +:+ joined (host (client w)) +:+ CRLF) s);
             esmtp := esmtp (client w);
             capabilities :=
               if loose_eq (Packet.status p) "250"
               then parseCapabilities (capabilities (client w)) (Packet.data p)
               else capabilities (client w);
             debug := debug (client w);
             port := port (client w);
             host := host (client w);
             connected := connected (client w) || loose_eq (Packet.status p) "250";
             waiting := false |};
        inbox := rest; flow := tl (flow w) |}).
Proof.
  intros Hs Hi. unfold helo, addCallback, callbacks.
  rewrite (send_run _ _ _ _ _ Hs Hi). simpl.
  destruct (loose_eq (Packet.status p) "250"); run_op.
  - by rewrite orb_true_r.
  - by rewrite orb_false_r.
Qed.

Lemma ehlo_run w s p rest :
  socket (client w) = Some s → inbox w = p :: rest →
  ehlo w
  = (if loose_eq (Packet.status p) "250" then Success p else Failure (Some p),
     {| client :=
          {| socket := Some (sent ("EHLO " +:+ joined (host (client w)) +:+ CRLF) s);
             esmtp := esmtp (client w);
             capabilities :=
               if loose_eq (Packet.status p) "250"
               then parseCapabilities (capabilities (client w)) (Packet.data p)
               else capabilities (client w);
             debug := debug (client w);
             port := port (client w);
             host := host (client w);
             connected := connected (client w) || loose_eq (Packet.status p) "250";
             waiting := false |};
        inbox := rest; flow := tl (flow w) |}).
Proof.
  intros Hs Hi. unfold ehlo, addCallback, callbacks.
  rewrite (send_run _ _ _ _ _ Hs Hi). simpl.
  destruct (loose_eq (Packet.status p) "250"); run_op.
  - by rewrite orb_true_r.
  - by rewrite orb_false_r.
Qed.

(** Whatever the world, the two handshakes end the same way and leave the
    same client apart from its socket, the same replies to come and the
    same transport answers. *)
Lemma helo_ehlo_outcome w :
  (helo w).1 = (ehlo w).1
  ∧ with_socket None (client (helo w).2) = with_socket None (client (ehlo w).2)
  ∧ inbox (helo w).2 = inbox (ehlo w).2
  ∧ flow (helo w).2 = flow (ehlo w).2.
Proof.
  destruct (socket (client w)) as [s|] eqn:Hs.
  - destruct (inbox w) as [|p rest] eqn:Hi.
    + unfold helo, ehlo, addCallback, callbacks.
      by rewrite !(send_silent _ _ _ Hs Hi).
    + by rewrite (helo_run _ _ _ _ Hs Hi), (ehlo_run _ _ _ _ Hs Hi).
  - unfold helo, ehlo, addCallback, callbacks. by rewrite !(send_null _ _ Hs).
Qed.

(** C9: [helo] and [ehlo] differ only in the command word written.  For
    the same reply packet both succeed exactly when its status is 250,
    both then parse the capabilities from its lines and set [connected],
    and both fail with that packet on any other status; outcome, client
    fields other than the socket and remaining environment agree, and the
    sockets differ in the line written, HELO host or EHLO host. *)
Theorem helo_ehlo_differ_in_word w s p rest :
  socket (client w) = Some s → inbox w = p :: rest →
  (helo w).1 = (ehlo w).1
  ∧ with_socket None (client (helo w).2) = with_socket None (client (ehlo w).2)
  ∧ inbox (helo w).2 = inbox (ehlo w).2
  ∧ flow (helo w).2 = flow (ehlo w).2
  ∧ socket (client (helo w).2)
    = Some {| written := written s ++ ["HELO " +:+ joined (host (client w)) +:+ CRLF];
              ended := ended s |}
  ∧ socket (client (ehlo w).2)
    = Some {| written := written s ++ ["EHLO " +:+ joined (host (client w)) +:+ CRLF];
              ended := ended s |}
  ∧ ((ehlo w).1 = Success p ↔ loose_eq (Packet.status p) "250" = true)
  ∧ (loose_eq (Packet.status p) "250" = true →
     capabilities (client (ehlo w).2)
       = parseCapabilities (capabilities (client w)) (Packet.data p)
     ∧ connected (client (ehlo w).2) = true)
  ∧ (loose_eq (Packet.status p) "250" = false →
     (ehlo w).1 = Failure (Some p)
     ∧ capabilities (client (ehlo w).2) = capabilities (client w)
     ∧ connected (client (ehlo w).2) = connected (client w)).
Proof.
  intros Hs Hi.
  destruct (helo_ehlo_outcome w) as (Ho & Hc & Hin & Hf).
  do 4 (split; [done|]).
  rewrite (helo_run _ _ _ _ Hs Hi), (ehlo_run _ _ _ _ Hs Hi). simpl.
  destruct (loose_eq (Packet.status p) "250"); simpl;
    rewrite ?orb_true_r, ?orb_false_r; repeat split; intros; congruence.
Qed.

Lemma helo_ehlo_differ_in_word_witness :
  (helo (session "client.test" [reply "250" ["mx.test"; "SIZE 100"]])).1
  = (ehlo (session "client.test" [reply "250" ["mx.test"; "SIZE 100"]])).1
  ∧ socket (client (helo (session "client.test" [reply "250" ["mx.test"; "SIZE 100"]])).2)
    = Some {| written := ["HELO client.test" +:+ CRLF]; ended := false |}
  ∧ socket (client (ehlo (session "client.test" [reply "250" ["mx.test"; "SIZE 100"]])).2)
    = Some {| written := ["EHLO client.test" +:+ CRLF]; ended := false |}.
Proof.
  pose proof (helo_ehlo_differ_in_word
    (session "client.test" [reply "250" ["mx.test"; "SIZE 100"]])
    {| written := []; ended := false |} (reply "250" ["mx.test"; "SIZE 100"]) []
    eq_refl eq_refl) as (Ho & _ & _ & _ & Hh & He & _).
  exact (conj Ho (conj Hh He)).
Defined.

(** ** Repeated handshakes *)

(** C2 (as amended): after two successful handshakes on one session, each
    answered by a 250 reply, the capabilities are the mapping built from
    the second reply laid over the mapping the first handshake left:
    entries of the second reply replace earlier entries of the same name,
    every other earlier entry remains. *)
Theorem handshake_merges_capabilities (h1 h2 : Op Packet.t) w s p1 p2 rest :
  h1 = helo ∨ h1 = ehlo → h2 = helo ∨ h2 = ehlo →
  socket (client w) = Some s → inbox w = p1 :: p2 :: rest →
  loose_eq (Packet.status p1) "250" = true →
  loose_eq (Packet.status p2) "250" = true →
  (h1 w).1 = Success p1
  ∧ (h2 (h1 w).2).1 = Success p2
  ∧ capabilities (client (h2 (h1 w).2).2)
    = parseCapabilities ∅ (Packet.data p2) ∪ capabilities (client (h1 w).2).
Proof.
  intros Hh1 Hh2 Hs Hi Hp1 Hp2.
  assert (∃ s1, socket (client (h1 w).2) = Some s1
                ∧ inbox (h1 w).2 = p2 :: rest
                ∧ (h1 w).1 = Success p1) as (s1 & Hs1 & Hi1 & Ho1).
  { destruct Hh1 as [-> | ->];
      [rewrite (helo_run _ _ _ _ Hs Hi) | rewrite (ehlo_run _ _ _ _ Hs Hi)];
      rewrite Hp1; simpl; eauto. }
  split; [done|].
  destruct Hh2 as [-> | ->];
    [rewrite (helo_run _ _ _ _ Hs1 Hi1) | rewrite (ehlo_run _ _ _ _ Hs1 Hi1)];
    rewrite Hp2; simpl; (split; [done|]); apply parseCapabilities_union.
Qed.

Lemma handshake_merges_capabilities_witness :
  capabilities (client (ehlo (ehlo (session "client.test"
      [reply "250" ["mx.test"; "SIZE 100"]; reply "250" ["mx.test"; "8BITMIME"]])).2).2)
  = {[ "8BITMIME" := CapTrue ]} ∪ {[ "SIZE" := CapText "SIZE 100" ]}.
Proof.
  pose proof (handshake_merges_capabilities ehlo ehlo
    (session "client.test"
       [reply "250" ["mx.test"; "SIZE 100"]; reply "250" ["mx.test"; "8BITMIME"]])
    {| written := []; ended := false |}
    (reply "250" ["mx.test"; "SIZE 100"]) (reply "250" ["mx.test"; "8BITMIME"]) []
    (or_intror eq_refl) (or_intror eq_refl) eq_refl eq_refl eq_refl eq_refl)
    as (_ & _ & Hcaps).
  etrans; [exact Hcaps | vm_compute; reflexivity].
Defined.

(** C2, the claim as stated fails: [ehlo] twice, each answered by a 250
    reply; the capability SIZE announced by the first reply only is still
    recorded after the second handshake, so the mapping is not the one
    built from the second reply alone. *)
Lemma handshake_does_not_replace :
  (ehlo (session "client.test"
     [reply "250" ["mx.test"; "SIZE 100"]; reply "250" ["mx.test"; "8BITMIME"]])).1
  = Success (reply "250" ["mx.test"; "SIZE 100"])
  ∧ (ehlo (ehlo (session "client.test"
       [reply "250" ["mx.test"; "SIZE 100"]; reply "250" ["mx.test"; "8BITMIME"]])).2).1
    = Success (reply "250" ["mx.test"; "8BITMIME"])
  ∧ capabilities (client (ehlo (ehlo (session "client.test"
       [reply "250" ["mx.test"; "SIZE 100"]; reply "250" ["mx.test"; "8BITMIME"]])).2).2)
    ≠ parseCapabilities ∅ ["mx.test"; "8BITMIME"]
  ∧ capabilities (client (ehlo (ehlo (session "client.test"
       [reply "250" ["mx.test"; "SIZE 100"]; reply "250" ["mx.test"; "8BITMIME"]])).2).2)
      !! "SIZE" = Some (CapText "SIZE 100").
Proof.
  split; [reflexivity|]. split; [reflexivity|]. split; [|by vm_compute].
  intros H. apply (f_equal (.!! "SIZE")) in H. vm_compute in H. discriminate.
Qed.

(** ** The greeting and the choice of handshake *)

Lemma prefix_spec needle s :
  String.prefix needle s = true ↔ ∃ post, s = needle +:+ post.
Proof.
  revert s. induction needle as [|c needle IH]; intros s.
  - destruct s; simpl; split; eauto.
  - destruct s as [|d s]; simpl.
    + split; [done | by intros [post ?]].
    + destruct (ascii_dec c d) as [->|Hne].
      * rewrite IH. split; intros [post Hp]; exists post; congruence.
      * split; [done | intros [post ?]; congruence].
Qed.

Lemma contains_unfold needle s :
  Js.contains needle s
  = String.prefix needle s
    || match s with
       | EmptyString => false
       | String _ s' => Js.contains needle s'
       end.
Proof. by destruct s. Qed.

(** [Js.contains] is the substring test. *)
Lemma contains_spec needle s :
  Js.contains needle s = true ↔ ∃ pre post, s = pre +:+ needle +:+ post.
Proof.
  induction s as [|c s IH]; rewrite contains_unfold, orb_true_iff, prefix_spec.
  - split.
    + intros [[post Hp] | ?]; [|done]. by exists EmptyString, post.
    + intros ([|d pre] & post & Hp); [left; by exists post | done].
  - rewrite IH. split.
    + intros [[post Hp] | (pre & post & ->)].
      * by exists EmptyString, post.
      * by exists (String c pre), post.
    + intros ([|d pre] & post & Hp).
      * left. by exists post.
      * right. exists pre, post. simpl in Hp. congruence.
Qed.

(** The handshake as [connect] issues it: one command line is written,
    EHLO or HELO by the flag, and the flag is not touched. *)
Lemma handshake_writes {A} (k : Packet.t → Op A) w s :
  socket (client w) = Some s →
  (∀ q w1, client (k q w1).2 = client w1) →
  socket (client (addCallback handshake k w).2)
    = Some (sent ((if esmtp (client w) then "EHLO " else "HELO ")
                  +:+ joined (host (client w)) +:+ CRLF) s)
  ∧ esmtp (client (addCallback handshake k w).2) = esmtp (client w).
Proof.
  intros Hs Hk. unfold addCallback, callbacks, handshake.
  destruct (inbox w) as [|p rest] eqn:Hi.
  - destruct (esmtp (client w)) eqn:He; unfold ehlo, helo, addCallback, callbacks;
      rewrite (send_silent _ _ _ Hs Hi); simpl; by rewrite ?He.
  - destruct (esmtp (client w)) eqn:He;
      [rewrite (ehlo_run _ _ _ _ Hs Hi) | rewrite (helo_run _ _ _ _ Hs Hi)];
      destruct (loose_eq (Packet.status p) "250"); simpl;
      rewrite ?Hk; simpl; by rewrite ?He.
Qed.

(** [connect] up to the greeting: the endpoint is recorded, the socket is
    new, the greeting is consumed and, its status being 220, the flag is
    raised if the text matches; the handshake follows. *)
Lemma connect_greeting w p rest port' host' :
  inbox w = p :: rest → loose_eq (Packet.status p) "220" = true →
  connect port' host' w
  = addCallback handshake (λ _, emitSuccess p)
      {| client :=
           {| socket := Some {| written := []; ended := false |};
              esmtp := Js.test_i "ESMTP" (Js.join "," (Packet.data p))
                       || esmtp (client w);
              capabilities := capabilities (client w);
              debug := debug (client w);
              port := Some port';
              host := Some host';
              connected := connected (client w);
              waiting := waiting (client w) |};
         inbox := rest; flow := flow w |}.
Proof.
  intros Hi H220. open_world w.
  unfold connect, next_packet, mbind, Op_bind, callbacks, assign, mret,
    Op_ret, set_client.
  simpl. rewrite H220.
  by destruct (Js.test_i "ESMTP" (Js.join "," (Packet.data p))).
Qed.

(** C6: for a greeting with status 220, if its text contains ESMTP in any
    letter case the flag [esmtp] is set and the handshake written is EHLO;
    if not, the flag is left as it was and, being false, makes the
    handshake HELO.  Whatever replies follow, [connect] writes this one
    handshake line and nothing else. *)
Theorem connect_selects_handshake w p rest port' host' :
  inbox w = p :: rest → loose_eq (Packet.status p) "220" = true →
  (Js.test_i "ESMTP" (Js.join "," (Packet.data p)) = true →
   esmtp (client (connect port' host' w).2) = true
   ∧ socket (client (connect port' host' w).2)
     = Some {| written := ["EHLO " +:+ host' +:+ CRLF]; ended := false |})
  ∧ (Js.test_i "ESMTP" (Js.join "," (Packet.data p)) = false →
     esmtp (client (connect port' host' w).2) = esmtp (client w)
     ∧ (esmtp (client w) = false →
        socket (client (connect port' host' w).2)
        = Some {| written := ["HELO " +:+ host' +:+ CRLF]; ended := false |})).
Proof.
  intros Hi H220. rewrite (connect_greeting _ _ _ _ _ Hi H220).
  split; intros Ht; rewrite Ht;
    edestruct (handshake_writes (λ _ : Packet.t, emitSuccess p)) as [Hw He];
    [| exact (λ q w1, eq_refl) | rewrite Hw, He | | exact (λ q w1, eq_refl)
     | rewrite Hw, He]; try reflexivity; simpl.
  - done.
  - split; [done|]. by intros ->.
Qed.

Lemma connect_selects_handshake_witness :
  (esmtp (client (connect 25 "client.test"
     (fresh [reply "220" ["mail.example.com Esmtp Ready"; "OK"]])).2) = true
   ∧ socket (client (connect 25 "client.test"
       (fresh [reply "220" ["mail.example.com Esmtp Ready"; "OK"]])).2)
     = Some {| written := ["EHLO client.test" +:+ CRLF]; ended := false |})
  ∧ (esmtp (client (connect 25 "client.test"
       (fresh [reply "220" ["mail.example.com ready"]; reply "250" ["hi"]])).2) = false
     ∧ socket (client (connect 25 "client.test"
         (fresh [reply "220" ["mail.example.com ready"]; reply "250" ["hi"]])).2)
       = Some {| written := ["HELO client.test" +:+ CRLF]; ended := false |}).
Proof.
  split.
  - exact (proj1 (connect_selects_handshake
      (fresh [reply "220" ["mail.example.com Esmtp Ready"; "OK"]])
      (reply "220" ["mail.example.com Esmtp Ready"; "OK"]) [] 25 "client.test"
      eq_refl eq_refl) eq_refl).
  - destruct (proj2 (connect_selects_handshake
      (fresh [reply "220" ["mail.example.com ready"]; reply "250" ["hi"]])
      (reply "220" ["mail.example.com ready"]) [reply "250" ["hi"]] 25 "client.test"
      eq_refl eq_refl) eq_refl) as [He Hw].
    exact (conj He (Hw eq_refl)).
Defined.

(** ** DATA *)

Lemma beginData_run w s p rest :
  socket (client w) = Some s → inbox w = p :: rest →
  beginData w
  = (if loose_eq (Packet.status p) "354" then Success tt else Failure (Some p),
     {| client := with_waiting false
                    (with_socket (Some (sent ("DATA" +:+ CRLF) s)) (client w));
        inbox := rest; flow := tl (flow w) |}).
Proof.
  intros Hs Hi. unfold beginData, addCallback, callbacks.
  rewrite (send_run _ _ _ _ _ Hs Hi).
  by destruct (loose_eq (Packet.status p) "354").
Qed.

Lemma endData_run w s p rest :
  socket (client w) = Some s → inbox w = p :: rest →
  endData w
  = (if loose_eq (Packet.status p) "250" then Success tt else Failure (Some p),
     {| client := with_waiting false
                    (with_socket (Some (sent (CRLF +:+ "." +:+ CRLF) s)) (client w));
        inbox := rest; flow := tl (flow w) |}).
Proof.
  intros Hs Hi. unfold endData, addCallback, callbacks.
  rewrite (send_run _ _ _ _ _ Hs Hi).
  by destruct (loose_eq (Packet.status p) "250").
Qed.

Lemma send_silent_endData w s :
  socket (client w) = Some s → inbox w = [] →
  endData w
  = (Pending,
     {| client := with_waiting true
                    (with_socket (Some (sent (CRLF +:+ "." +:+ CRLF) s)) (client w));
        inbox := []; flow := tl (flow w) |}).
Proof.
  intros Hs Hi. unfold endData, addCallback, callbacks.
  by rewrite (send_silent _ _ _ Hs Hi).
Qed.

(** The payload goes to the socket as it is; the promise fires unless the
    write was queued and the transport never drains. *)
Lemma sendData_run w s payload :
  socket (client w) = Some s →
  sendData payload w
  = (match hd Flushed (flow w) with
     | Queued false => Pending
     | _ => Success tt
     end,
     {| client := with_socket (Some (sent payload s)) (client w);
        inbox := inbox w; flow := tl (flow w) |}).
Proof.
  intros Hs. open_world w. unfold sendData, socket_write. run_op.
  by destruct (hd Flushed _) as [|[]].
Qed.

(** The composite operation once DATA was answered by 354: the payload
    and, unless the transport blocks for good, the terminator follow. *)
Lemma data_after_354 w s payload p1 rest1 :
  socket (client w) = Some s → inbox w = p1 :: rest1 →
  loose_eq (Packet.status p1) "354" = true →
  data payload w
  = match hd Flushed (tl (flow w)) with
    | Queued false =>
        (Pending,
         {| client := with_waiting false
              (with_socket (Some (sent payload (sent ("DATA" +:+ CRLF) s))) (client w));
            inbox := rest1; flow := tl (tl (flow w)) |})
    | _ =>
        callbacks endData (λ _, emitSuccess tt) (λ packet, emitError packet)
          {| client := with_waiting false
               (with_socket (Some (sent payload (sent ("DATA" +:+ CRLF) s))) (client w));
             inbox := rest1; flow := tl (tl (flow w)) |}
    end.
Proof.
  intros Hs Hi H354. unfold data. unfold callbacks at 1.
  rewrite (beginData_run _ _ _ _ Hs Hi), H354.
  unfold addCallback. unfold callbacks at 1.
  erewrite sendData_run by reflexivity. simpl.
  by destruct (hd Flushed (tl (flow w))) as [|[]].
Qed.

(** C7: [data payload] on a client with a socket, DATA being answered by
    [p1].  If the status of [p1] is not 354, only the DATA line is
    written, neither payload nor terminator, and the promise fails with
    [p1].  The promise succeeds only if [p1] has status 354 and the reply
    after the terminator has status 250, and then exactly three chunks
    were written, in this order: the DATA line, the payload as it is, and
    CRLF . CRLF.  With status 354 and a transport that takes the payload,
    the three chunks are written and the reply after the terminator
    decides: success on 250, failure with that reply otherwise. *)
Theorem data_three_writes w s payload p1 rest1 :
  socket (client w) = Some s → inbox w = p1 :: rest1 →
  (loose_eq (Packet.status p1) "354" = false →
   (data payload w).1 = Failure (Some p1)
   ∧ socket (client (data payload w).2)
     = Some {| written := written s ++ ["DATA" +:+ CRLF]; ended := ended s |})
  ∧ ((data payload w).1 = Success tt →
     loose_eq (Packet.status p1) "354" = true
     ∧ (∃ p2, head rest1 = Some p2 ∧ loose_eq (Packet.status p2) "250" = true)
     ∧ socket (client (data payload w).2)
       = Some {| written := written s ++ ["DATA" +:+ CRLF; payload; CRLF +:+ "." +:+ CRLF];
                 ended := ended s |})
  ∧ (loose_eq (Packet.status p1) "354" = true →
     hd Flushed (tl (flow w)) ≠ Queued false →
     socket (client (data payload w).2)
       = Some {| written := written s ++ ["DATA" +:+ CRLF; payload; CRLF +:+ "." +:+ CRLF];
                 ended := ended s |}
     ∧ ∀ p2 rest, rest1 = p2 :: rest →
         ((data payload w).1 = Success tt ↔ loose_eq (Packet.status p2) "250" = true)
         ∧ (loose_eq (Packet.status p2) "250" = false →
            (data payload w).1 = Failure (Some p2))).
Proof.
  intros Hs Hi.
  destruct (loose_eq (Packet.status p1) "354") eqn:H354.
  - rewrite (data_after_354 _ _ _ _ _ Hs Hi H354).
    assert (∀ (l1 : list string) a b c,
              ((l1 ++ [a]) ++ [b]) ++ [c] = l1 ++ [a; b; c])%list as Happ
      by (intros; by rewrite <- !app_assoc).
    destruct (hd Flushed (tl (flow w))) as [|[]] eqn:Hf;
      (split; [done|]); try (by repeat split).
    all: unfold callbacks;
      destruct rest1 as [|p2 rest];
      [ erewrite send_silent_endData by reflexivity
      | erewrite endData_run by reflexivity;
        destruct (loose_eq (Packet.status p2) "250") eqn:H250 ];
      simpl; unfold sent; simpl; rewrite Happ;
      repeat split; intros; simplify_eq; eauto; congruence.
  - unfold data, callbacks. rewrite (beginData_run _ _ _ _ Hs Hi), H354.
    simpl. by repeat split.
Qed.

Lemma data_three_writes_witness :
  (data "Subject: hi" (session "client.test"
     [reply "354" ["Go ahead"]; reply "250" ["Queued"]])).1 = Success tt
  ∧ socket (client (data "Subject: hi" (session "client.test"
      [reply "354" ["Go ahead"]; reply "250" ["Queued"]])).2)
    = Some {| written := ["DATA" +:+ CRLF; "Subject: hi"; CRLF +:+ "." +:+ CRLF];
              ended := false |}.
Proof.
  destruct (data_three_writes
    (session "client.test" [reply "354" ["Go ahead"]; reply "250" ["Queued"]])
    {| written := []; ended := false |} "Subject: hi"
    (reply "354" ["Go ahead"]) [reply "250" ["Queued"]] eq_refl eq_refl)
    as (_ & _ & H354).
  destruct (H354 eq_refl ltac:(discriminate)) as [Hw Hdecide].
  destruct (Hdecide (reply "250" ["Queued"]) [] eq_refl) as [Hok _].
  split; [apply Hok; reflexivity | exact Hw].
Defined.

(** The six verbs other than QUIT fail with the reply packet itself. *)
Lemma rejections_carry_packet w s p rest address :
  socket (client w) = Some s → inbox w = p :: rest →
  (loose_eq (Packet.status p) "250" = false →
   (helo w).1 = Failure (Some p) ∧ (ehlo w).1 = Failure (Some p)
   ∧ (mail address w).1 = Failure (Some p)
   ∧ (rcpt address w).1 = Failure (Some p)
   ∧ (endData w).1 = Failure (Some p))
  ∧ (loose_eq (Packet.status p) "354" = false →
     (beginData w).1 = Failure (Some p)).
Proof.
  intros Hs Hi. split; intros Hp.
  - rewrite (helo_run _ _ _ _ Hs Hi), (ehlo_run _ _ _ _ Hs Hi),
      (endData_run _ _ _ _ Hs Hi).
    unfold mail, rcpt, addCallback, callbacks.
    rewrite !(send_run _ _ _ _ _ Hs Hi), Hp. by repeat split.
  - by rewrite (beginData_run _ _ _ _ Hs Hi), Hp.
Qed.

(** ** The reply assembler: fragmentation *)

Section Fragmentation.
Import Assembler.

(** Induction on strings two characters at a time, as [frame] recurses. *)
Lemma string_ind2 (P : string → Prop) :
  P EmptyString →
  (∀ c, P (String c EmptyString)) →
  (∀ c d s, P s → P (String d s) → P (String c (String d s))) →
  ∀ s, P s.
Proof.
  intros H0 H1 H2 s.
  enough (P s ∧ ∀ c, P (String c s)) as [? _] by done.
  induction s as [|d s [IHs IHc]]; [by split|].
  split; [apply IHc|]. intros c. by apply H2.
Qed.

Lemma frame_crlf s :
  frame (String CR (String LF s))
  = (EmptyString :: (frame s).1, (frame s).2).
Proof. simpl. by destruct (frame s). Qed.

Lemma frame_other c d s :
  Ascii.eqb c CR && Ascii.eqb d LF = false →
  frame (String c (String d s)) = push c (frame (String d s)).
Proof. intros H. cbn [frame]. by rewrite H. Qed.

Lemma is_crlf c d :
  Ascii.eqb c CR && Ascii.eqb d LF = true → c = CR ∧ d = LF.
Proof. rewrite andb_true_iff, !Ascii.eqb_eq. done. Qed.

(** Text without a complete line is retained whole. *)
Lemma frame_nil_rest s r : frame s = ([], r) → r = s.
Proof.
  revert r. induction s as [| c | c d s _ IH] using string_ind2; intros r.
  - by intros [= <-].
  - by intros [= <-].
  - destruct (Ascii.eqb c CR && Ascii.eqb d LF) eqn:E.
    + apply is_crlf in E as [-> ->]. by rewrite frame_crlf.
    + rewrite (frame_other _ _ _ E).
      destruct (frame (String d s)) as [[|l ls] r'] eqn:F; simpl; [|done].
      intros [= <-]. by rewrite (IH r').
Qed.

(** Framing a text cut in two: the lines of the first part, then the
    lines of what it left unterminated followed by the second part. *)
Lemma frame_app a b :
  frame (a +:+ b)
  = (((frame a).1 ++ (frame ((frame a).2 +:+ b)).1)%list,
     (frame ((frame a).2 +:+ b)).2).
Proof.
  induction a as [| c | c d s IH1 IH2] using string_ind2.
  - change (frame EmptyString) with ([] : list string, EmptyString).
    cbn [fst snd]. change (EmptyString +:+ b) with b.
    by destruct (frame b).
  - change (frame (String c EmptyString))
      with ([] : list string, String c EmptyString).
    cbn [fst snd]. by destruct (frame (String c EmptyString +:+ b)).
  - destruct (Ascii.eqb c CR && Ascii.eqb d LF) eqn:E.
    + apply is_crlf in E as [-> ->].
      change (String CR (String LF s) +:+ b) with (String CR (String LF (s +:+ b))).
      rewrite !frame_crlf, IH1. done.
    + change (String c (String d s) +:+ b) with (String c (String d (s +:+ b))).
      rewrite !(frame_other _ _ _ E).
      change (String d (s +:+ b)) with (String d s +:+ b).
      destruct (frame (String d s)) as [[|l ls] r'] eqn:F.
      * apply frame_nil_rest in F as ->.
        change (push c (frame (String d (s +:+ b)))
                = ((frame (String c (String d (s +:+ b)))).1,
                   (frame (String c (String d (s +:+ b)))).2)).
        rewrite (frame_other _ _ _ E). apply surjective_pairing.
      * rewrite IH2. simpl. done.
Qed.

Lemma receive_lines_app r ls1 ls2 :
  receive_lines r (ls1 ++ ls2)
  = ((receive_lines (receive_lines r ls1).1 ls2).1,
     ((receive_lines r ls1).2 ++ (receive_lines (receive_lines r ls1).1 ls2).2)%list).
Proof.
  revert r. induction ls1 as [|l ls1 IH]; intros r; simpl.
  - by destruct (receive_lines r ls2).
  - destruct (receive_line r l) as [r' emitted]. rewrite IH.
    destruct (receive_lines r' ls1) as [r1 out1]. simpl.
    by rewrite app_assoc.
Qed.

(** Feeding two chunks one after the other is feeding them joined. *)
Lemma feed_app st a b :
  feed st (a +:+ b)
  = ((feed (feed st a).1 b).1, ((feed st a).2 ++ (feed (feed st a).1 b).2)%list).
Proof.
  unfold feed. rewrite <- append_assoc, frame_app.
  destruct (frame (buffer st +:+ a)) as [la ra]. simpl.
  rewrite receive_lines_app.
  destruct (receive_lines (reply_so_far st) la) as [r1 out1]. simpl.
  destruct (frame (ra +:+ b)) as [lb rb]. simpl.
  by destruct (receive_lines r1 lb).
Qed.

Lemma feed_all_cons st chunk chunks :
  feed_all st (chunk :: chunks) = feed st (stream (chunk :: chunks)).
Proof.
  revert st chunk. induction chunks as [|chunk' chunks IH]; intros st chunk.
  - simpl. rewrite append_empty_r. destruct (feed st chunk).
    by rewrite app_nil_r.
  - change (feed_all st (chunk :: chunk' :: chunks))
      with (let '(st', out) := feed st chunk in
            let '(st'', out') := feed_all st' (chunk' :: chunks) in
            (st'', (out ++ out')%list)).
    change (stream (chunk :: chunk' :: chunks))
      with (chunk +:+ stream (chunk' :: chunks)).
    rewrite feed_app. destruct (feed st chunk) as [st' out].
    rewrite IH. simpl. by destruct (feed st' _).
Qed.

(** However the byte stream is cut into chunks, the assembler ends in the
    same state and has emitted the same packets as when it is fed the
    stream in one piece. *)
Lemma feed_all_stream chunks :
  feed_all init chunks = feed init (stream chunks).
Proof. destruct chunks; [done | apply feed_all_cons]. Qed.

End Fragmentation.

(** The greeting of a server, cut inside a line and inside a CRLF. *)
Example assembler_greeting :
  Assembler.feed_all Assembler.init
    ["220-mail.exam"; "ple.com ESMTP Ready" +:+ String "013" EmptyString; String "010" "220 OK" +:+ CRLF]
  = (Assembler.init,
     [reply "220" ["mail.example.com ESMTP Ready"; "OK"]]).
Proof. vm_compute. reflexivity. Qed.

(** C8: for every sequence of reply lines and every way of cutting its
    byte stream (each line followed by CRLF) into chunks, also in the
    middle of a line or of a CRLF, feeding the chunks to the reply
    assembler emits the same sequence of packets, with the same status and
    lines, as feeding the unsplit stream, and leaves the same state. *)
Theorem assembler_fragmentation_invariant (ls chunks : list string) :
  Assembler.stream chunks = Assembler.wire ls →
  Assembler.feed_all Assembler.init chunks
  = Assembler.feed Assembler.init (Assembler.wire ls).
Proof. intros <-. apply feed_all_stream. Qed.

Lemma assembler_fragmentation_invariant_witness :
  Assembler.feed_all Assembler.init
    ["220-mail.exam"; "ple.com ESMTP Ready" +:+ String "013" EmptyString;
     String "010" "220 OK" +:+ CRLF +:+ "250"; "-mx" +:+ CRLF +:+ "250 SIZE 10" +:+ CRLF]
  = (Assembler.init,
     [reply "220" ["mail.example.com ESMTP Ready"; "OK"];
      reply "250" ["mx"; "SIZE 10"]]).
Proof.
  etrans.
  - exact (assembler_fragmentation_invariant
      ["220-mail.example.com ESMTP Ready"; "220 OK"; "250-mx"; "250 SIZE 10"]
      ["220-mail.exam"; "ple.com ESMTP Ready" +:+ String "013" EmptyString;
       String "010" "220 OK" +:+ CRLF +:+ "250"; "-mx" +:+ CRLF +:+ "250 SIZE 10" +:+ CRLF]
      eq_refl).
  - vm_compute. reflexivity.
Defined.

(** * Further properties of the client *)

(** ** The single commands *)

(** X1: [rcpt address] writes exactly the line RCPT TO: <address> and CRLF;
    its promise succeeds with the reply if and only if the reply status is
    250 and fails with the reply otherwise. *)
Theorem rcpt_writes_and_resolves w s p rest address :
  socket (client w) = Some s → inbox w = p :: rest →
  socket (client (rcpt address w).2)
    = Some {| written := written s ++ ["RCPT TO: <" +:+ address +:+ ">" +:+ CRLF];
              ended := ended s |}
  ∧ ((rcpt address w).1 = Success p ↔ loose_eq (Packet.status p) "250" = true)
  ∧ (loose_eq (Packet.status p) "250" = false →
     (rcpt address w).1 = Failure (Some p)).
Proof.
  intros Hs Hi. unfold rcpt, addCallback, callbacks.
  rewrite (send_run _ _ _ _ _ Hs Hi).
  unfold sent; simpl. rewrite append_assoc.
  destruct (loose_eq (Packet.status p) "250"); simpl;
    repeat split; intros; congruence.
Qed.

Lemma rcpt_writes_and_resolves_witness :
  socket (client (rcpt "rcpt@example.com" (session "client.test" [reply "550" ["No such user"]])).2)
    = Some {| written := ["RCPT TO: <rcpt@example.com>" +:+ CRLF]; ended := false |}
  ∧ (rcpt "rcpt@example.com" (session "client.test" [reply "550" ["No such user"]])).1
    = Failure (Some (reply "550" ["No such user"])).
Proof.
  pose proof (rcpt_writes_and_resolves
    (session "client.test" [reply "550" ["No such user"]])
    {| written := []; ended := false |} (reply "550" ["No such user"]) []
    "rcpt@example.com" eq_refl eq_refl) as (Hw & _ & Hfail).
  split; [exact Hw | apply Hfail; reflexivity].
Defined.

(** X2: [beginData] writes the line DATA and CRLF; only the status 354 makes
    its promise succeed (a 250 does not), and the success carries no
    value; any other reply is handed to the errback. *)
Theorem beginData_needs_354 w s p rest :
  socket (client w) = Some s → inbox w = p :: rest →
  socket (client (beginData w).2)
    = Some {| written := written s ++ ["DATA" +:+ CRLF]; ended := ended s |}
  ∧ ((beginData w).1 = Success tt ↔ loose_eq (Packet.status p) "354" = true)
  ∧ (loose_eq (Packet.status p) "354" = false →
     (beginData w).1 = Failure (Some p)).
Proof.
  intros Hs Hi. rewrite (beginData_run _ _ _ _ Hs Hi).
  destruct (loose_eq (Packet.status p) "354"); simpl;
    repeat split; intros; congruence.
Qed.

Lemma beginData_needs_354_witness :
  (beginData (session "client.test" [reply "250" ["OK"]])).1
  = Failure (Some (reply "250" ["OK"]))
  ∧ socket (client (beginData (session "client.test" [reply "250" ["OK"]])).2)
    = Some {| written := ["DATA" +:+ CRLF]; ended := false |}.
Proof.
  pose proof (beginData_needs_354
    (session "client.test" [reply "250" ["OK"]])
    {| written := []; ended := false |} (reply "250" ["OK"]) []
    eq_refl eq_refl) as (Hw & _ & Hfail).
  split; [apply Hfail; reflexivity | exact Hw].
Defined.

(** X3: [endData] writes one chunk, CRLF . CRLF: the line it sends begins
    with a CRLF of its own, so the terminator is complete even when the
    payload did not end with a line break.  Its promise succeeds, with no
    value, if and only if the reply status is 250 and fails with the reply
    otherwise. *)
Theorem endData_writes_terminator w s p rest :
  socket (client w) = Some s → inbox w = p :: rest →
  socket (client (endData w).2)
    = Some {| written :=
                written s ++ [String "013" (String "010" (String "."
                               (String "013" (String "010" EmptyString))))];
              ended := ended s |}
  ∧ ((endData w).1 = Success tt ↔ loose_eq (Packet.status p) "250" = true)
  ∧ (loose_eq (Packet.status p) "250" = false →
     (endData w).1 = Failure (Some p)).
Proof.
  intros Hs Hi. rewrite (endData_run _ _ _ _ Hs Hi).
  destruct (loose_eq (Packet.status p) "250"); simpl;
    repeat split; intros; congruence.
Qed.

Lemma endData_writes_terminator_witness :
  (endData (session "client.test" [reply "250" ["Queued"]])).1 = Success tt
  ∧ socket (client (endData (session "client.test" [reply "250" ["Queued"]])).2)
    = Some {| written := [CRLF +:+ "." +:+ CRLF]; ended := false |}.
Proof.
  pose proof (endData_writes_terminator
    (session "client.test" [reply "250" ["Queued"]])
    {| written := []; ended := false |} (reply "250" ["Queued"]) []
    eq_refl eq_refl) as (Hw & Hok & _).
  split; [apply Hok; reflexivity | exact Hw].
Defined.

(** X4: [sendData payload] hands the payload to the socket as one chunk,
    unchanged: no CRLF is added and nothing is escaped.  It awaits no
    reply, so the replies to come are untouched, and its promise never
    fails: it fires unless the write was queued and the transport never
    drains. *)
Theorem sendData_writes_payload_verbatim w s payload :
  socket (client w) = Some s →
  socket (client (sendData payload w).2)
    = Some {| written := written s ++ [payload]; ended := ended s |}
  ∧ inbox (sendData payload w).2 = inbox w
  ∧ waiting (client (sendData payload w).2) = waiting (client w)
  ∧ (∀ e, (sendData payload w).1 ≠ Failure e)
  ∧ ((sendData payload w).1 = Pending ↔ hd Flushed (flow w) = Queued false)
  ∧ ((sendData payload w).1 = Success tt ↔ hd Flushed (flow w) ≠ Queued false).
Proof.
  intros Hs. rewrite (sendData_run _ _ _ Hs). simpl.
  destruct (hd Flushed (flow w)) as [|[]]; repeat split; intros; congruence.
Qed.

Lemma sendData_writes_payload_verbatim_witness :
  socket (client (sendData "." (session "client.test" [])).2)
    = Some {| written := ["."]; ended := false |}
  ∧ (sendData "." (session "client.test" [])).1 = Success tt.
Proof.
  pose proof (sendData_writes_payload_verbatim (session "client.test" [])
    {| written := []; ended := false |} "." eq_refl)
    as (Hw & _ & _ & _ & _ & Hok).
  split; [exact Hw | apply Hok; discriminate].
Defined.

(** ** Commands without a socket, and commands without a reply *)

(** X5: Before [connect] the socket is [null]: every command throws on its
    first write.  Nothing is taken from the replies, but the commands that
    go through [send] have already raised [waiting], which stays raised;
    [sendData] leaves the client as it was. *)
Theorem commands_throw_without_socket w address payload :
  socket (client w) = None →
  helo w = (Thrown, set_client (with_waiting true) w)
  ∧ ehlo w = (Thrown, set_client (with_waiting true) w)
  ∧ mail address w = (Thrown, set_client (with_waiting true) w)
  ∧ rcpt address w = (Thrown, set_client (with_waiting true) w)
  ∧ beginData w = (Thrown, set_client (with_waiting true) w)
  ∧ endData w = (Thrown, set_client (with_waiting true) w)
  ∧ data payload w = (Thrown, set_client (with_waiting true) w)
  ∧ quit w = (Thrown, set_client (with_waiting true) w)
  ∧ sendData payload w = (Thrown, w).
Proof.
  intros Hs.
  unfold helo, ehlo, mail, rcpt, data, beginData, endData, quit, addCallback,
    callbacks.
  rewrite !(send_null _ _ Hs).
  repeat split.
  unfold sendData, socket_write. run_op. by rewrite Hs.
Qed.

Lemma commands_throw_without_socket_witness :
  mail "user@example.com" (fresh [reply "250" ["OK"]])
  = (Thrown, set_client (with_waiting true) (fresh [reply "250" ["OK"]]))
  ∧ waiting (client (mail "user@example.com" (fresh [reply "250" ["OK"]])).2) = true.
Proof.
  pose proof (commands_throw_without_socket (fresh [reply "250" ["OK"]])
    "user@example.com" "body" eq_refl) as (_ & _ & Hmail & _).
  split; [exact Hmail | by rewrite Hmail].
Defined.

(** X6: Reply correlation: a command on a connected client takes exactly the
    next reply packet and no other, writes exactly one chunk, and has
    cleared [waiting] when its promise has fired, whether it succeeded or
    failed. *)
Theorem command_takes_one_reply w s p rest address :
  socket (client w) = Some s → inbox w = p :: rest →
  let after (w' : World) :=
    inbox w' = rest
    ∧ waiting (client w') = false
    ∧ ∃ line, socket (client w') = Some (sent line s) in
  after (helo w).2 ∧ after (ehlo w).2 ∧ after (mail address w).2
  ∧ after (rcpt address w).2 ∧ after (beginData w).2 ∧ after (endData w).2
  ∧ ∃ line, inbox (quit w).2 = rest ∧ waiting (client (quit w).2) = false
      ∧ written <$> socket (client (quit w).2) = Some (written s ++ [line])%list.
Proof.
  intros Hs Hi after. subst after.
  rewrite (helo_run _ _ _ _ Hs Hi), (ehlo_run _ _ _ _ Hs Hi),
    (beginData_run _ _ _ _ Hs Hi), (endData_run _ _ _ _ Hs Hi),
    (quit_run _ _ _ _ Hs Hi).
  unfold mail, rcpt, addCallback, callbacks.
  rewrite !(send_run _ _ _ _ _ Hs Hi).
  destruct (loose_eq (Packet.status p) "250"); simpl; repeat split; eauto.
Qed.

Lemma command_takes_one_reply_witness :
  inbox (mail "user@example.com"
    (session "client.test" [reply "250" ["OK"]; reply "250" ["next"]])).2
  = [reply "250" ["next"]].
Proof.
  pose proof (command_takes_one_reply
    (session "client.test" [reply "250" ["OK"]; reply "250" ["next"]])
    {| written := []; ended := false |} (reply "250" ["OK"])
    [reply "250" ["next"]] "user@example.com" eq_refl eq_refl)
    as (_ & _ & (Hin & _) & _).
  exact Hin.
Defined.

(** X7: A command whose reply never comes: its line was written, its promise
    never fires and [waiting] stays raised; no timeout exists. *)
Theorem command_without_reply_stays_waiting w s address :
  socket (client w) = Some s → inbox w = [] →
  let stuck (A : Type) (r : Outcome A * World) :=
    r.1 = Pending ∧ waiting (client r.2) = true
    ∧ ∃ line, socket (client r.2) = Some (sent line s) in
  stuck _ (helo w) ∧ stuck _ (ehlo w) ∧ stuck _ (mail address w)
  ∧ stuck _ (rcpt address w) ∧ stuck _ (beginData w) ∧ stuck _ (endData w)
  ∧ stuck _ (quit w).
Proof.
  intros Hs Hi stuck. subst stuck.
  unfold helo, ehlo, mail, rcpt, beginData, endData, quit, addCallback,
    callbacks.
  rewrite !(send_silent _ _ _ Hs Hi). simpl. repeat split; eauto.
Qed.

Lemma command_without_reply_stays_waiting_witness :
  (quit (session "client.test" [])).1 = Pending
  ∧ waiting (client (quit (session "client.test" [])).2) = true.
Proof.
  pose proof (command_without_reply_stays_waiting (session "client.test" [])
    {| written := []; ended := false |} "user@example.com" eq_refl eq_refl)
    as (_ & _ & _ & _ & _ & _ & Hp & Hw & _).
  exact (conj Hp Hw).
Defined.

(** ** Connecting *)



(** X9: After a 220 greeting the promise of [connect] depends on the reply to
    the handshake.  On 250 it succeeds, and its value is the greeting
    packet, not the handshake reply; the client is then [connected] with
    the capabilities of the handshake reply.  On any other status the
    promise of [connect] is fired neither way: the handshake is given a
    callback and no errback, and the client is not connected. *)
Theorem connect_outcome_after_greeting w g p rest port' host' :
  inbox w = g :: p :: rest → loose_eq (Packet.status g) "220" = true →
  (loose_eq (Packet.status p) "250" = true →
   (connect port' host' w).1 = Success g
   ∧ connected (client (connect port' host' w).2) = true
   ∧ capabilities (client (connect port' host' w).2)
     = parseCapabilities (capabilities (client w)) (Packet.data p))
  ∧ (loose_eq (Packet.status p) "250" = false →
     (connect port' host' w).1 = Pending
     ∧ connected (client (connect port' host' w).2) = connected (client w)
     ∧ capabilities (client (connect port' host' w).2) = capabilities (client w))
  ∧ inbox (connect port' host' w).2 = rest
  ∧ waiting (client (connect port' host' w).2) = false.
Proof.
  intros Hi H220. rewrite (connect_greeting _ _ _ _ _ Hi H220).
  unfold addCallback, callbacks, handshake. cbn [client esmtp].
  destruct (Js.test_i "ESMTP" (Js.join "," (Packet.data g)) || esmtp (client w));
    [erewrite ehlo_run by reflexivity | erewrite helo_run by reflexivity];
    destruct (loose_eq (Packet.status p) "250"); simpl;
    rewrite ?orb_true_r, ?orb_false_r; repeat split; intros; congruence.
Qed.

Lemma connect_outcome_after_greeting_witness :
  (connect 25 "client.test"
     (fresh [reply "220" ["mx.test ESMTP"]; reply "250" ["mx.test"; "PIPELINING"]])).1
  = Success (reply "220" ["mx.test ESMTP"])
  ∧ (connect 25 "client.test"
       (fresh [reply "220" ["mx.test ESMTP"]; reply "502" ["Not implemented"]])).1
    = Pending.
Proof.
  split.
  - exact (proj1 (proj1 (connect_outcome_after_greeting
      (fresh [reply "220" ["mx.test ESMTP"]; reply "250" ["mx.test"; "PIPELINING"]])
      (reply "220" ["mx.test ESMTP"]) (reply "250" ["mx.test"; "PIPELINING"]) []
      25 "client.test" eq_refl eq_refl) eq_refl)).
  - exact (proj1 (proj1 (proj2 (connect_outcome_after_greeting
      (fresh [reply "220" ["mx.test ESMTP"]; reply "502" ["Not implemented"]])
      (reply "220" ["mx.test ESMTP"]) (reply "502" ["Not implemented"]) []
      25 "client.test" eq_refl eq_refl)) eq_refl)).
Defined.

(** X10: The flag [esmtp] is only ever raised.  A client that met an ESMTP
    greeting once and connects again keeps the flag, and so opens with
    EHLO even when the new greeting does not mention ESMTP. *)
Theorem reconnect_keeps_esmtp w p rest port' host' :
  inbox w = p :: rest → loose_eq (Packet.status p) "220" = true →
  esmtp (client w) = true →
  esmtp (client (connect port' host' w).2) = true
  ∧ socket (client (connect port' host' w).2)
    = Some {| written := ["EHLO " +:+ host' +:+ CRLF]; ended := false |}.
Proof.
  intros Hi H220 He. rewrite (connect_greeting _ _ _ _ _ Hi H220).
  edestruct (handshake_writes (λ _ : Packet.t, emitSuccess p)) as [Hw Hf];
    [| exact (λ q w1, eq_refl) | rewrite Hw, Hf]; [reflexivity|].
  simpl. by rewrite He, orb_true_r.
Qed.

Lemma reconnect_keeps_esmtp_witness :
  socket (client (connect 25 "client.test"
    (set_client (with_esmtp true) (fresh [reply "220" ["plain.test ready"]]))).2)
  = Some {| written := ["EHLO client.test" +:+ CRLF]; ended := false |}.
Proof.
  exact (proj2 (reconnect_keeps_esmtp
    (set_client (with_esmtp true) (fresh [reply "220" ["plain.test ready"]]))
    (reply "220" ["plain.test ready"]) [] 25 "client.test"
    eq_refl eq_refl eq_refl)).
Defined.

(** ** What the operations leave alone *)

Section Frame.

Lemma keeps_emitSuccess {A} (a : A) : keeps_session (emitSuccess a).
Proof. by intros w. Qed.

Lemma keeps_emitError {A} e : keeps_session (emitError (A:=A) e).
Proof. by intros w. Qed.

Lemma keeps_unheard {A} : keeps_session (unheard (A:=A)).
Proof. by intros w. Qed.

Lemma keeps_callbacks {A B} (m : Op A) (cb : A → Op B) eb :
  keeps_session m → (∀ a, keeps_session (cb a)) → (∀ e, keeps_session (eb e)) →
  keeps_session (callbacks m cb eb).
Proof.
  intros Hm Hcb Heb w. unfold callbacks. specialize (Hm w).
  destruct (m w) as [[a|e| |] w']; simpl in Hm; rewrite <- Hm;
    [apply Hcb | apply Heb | done | done].
Qed.

Lemma keeps_addCallback {A B} (m : Op A) (cb : A → Op B) :
  keeps_session m → (∀ a, keeps_session (cb a)) →
  keeps_session (addCallback m cb).
Proof. intros. apply keeps_callbacks; auto using @keeps_unheard. Qed.

Lemma keeps_bind {A B} (m : Op A) (k : A → Op B) :
  keeps_session m → (∀ a, keeps_session (k a)) → keeps_session (m ≫= k).
Proof. intros. apply keeps_callbacks; auto using @keeps_emitError. Qed.

Lemma keeps_waiting b : keeps_session (assign (with_waiting b)).
Proof. by intros w. Qed.

Lemma keeps_socket_write chunk : keeps_session (socket_write chunk).
Proof. intros w. unfold socket_write. by destruct (socket (client w)). Qed.

Lemma keeps_socket_end : keeps_session socket_end.
Proof. intros w. unfold socket_end. by destruct (socket (client w)). Qed.

Lemma keeps_next_packet : keeps_session next_packet.
Proof. intros w. unfold next_packet. by destruct (inbox w). Qed.

Lemma keeps_if {A} (b : bool) (m1 m2 : Op A) :
  keeps_session m1 → keeps_session m2 → keeps_session (if b then m1 else m2).
Proof. by destruct b. Qed.

End Frame.

Create HintDb session discriminated.

#[local] Hint Resolve keeps_emitSuccess keeps_emitError keeps_unheard
  keeps_waiting keeps_socket_write keeps_socket_end keeps_next_packet : session.
#[local] Hint Extern 2 (keeps_session (callbacks _ _ _)) =>
  apply keeps_callbacks; intros : session.
#[local] Hint Extern 2 (keeps_session (addCallback _ _)) =>
  apply keeps_addCallback; intros : session.
#[local] Hint Extern 2 (keeps_session (_ ≫= _)) =>
  apply keeps_bind; intros : session.
#[local] Hint Extern 2 (keeps_session (if _ then _ else _)) =>
  apply keeps_if : session.
#[local] Hint Extern 2 (keeps_session (mret _)) =>
  apply keeps_emitSuccess : session.

Lemma keeps_send arguments : keeps_session (send arguments).
Proof. unfold send, writeline. auto 10 with session. Qed.

#[local] Hint Resolve keeps_send : session.

(** X11: The mail commands and [quit] never touch the session: whatever the
    world and whatever the outcome (success, rejection, no reply, no
    socket), [esmtp], [capabilities], [connected], [host], [port] and
    [debug] are what they were.  Only [connect] and the handshakes change
    them. *)
Theorem mail_commands_keep_session address payload :
  keeps_session (mail address) ∧ keeps_session (rcpt address)
  ∧ keeps_session beginData ∧ keeps_session (sendData payload)
  ∧ keeps_session endData ∧ keeps_session (data payload)
  ∧ keeps_session quit.
Proof.
  assert (keeps_session (sendData payload)) as HsendData.
  { unfold sendData. apply keeps_bind; [auto with session|].
    intros [|[]]; auto with session. }
  assert (keeps_session beginData) by (unfold beginData; auto 10 with session).
  assert (keeps_session endData) by (unfold endData; auto 10 with session).
  repeat split; try done.
  - unfold mail. auto 10 with session.
  - unfold rcpt. auto 10 with session.
  - unfold data. auto 10 with session.
  - unfold quit. auto 10 with session.
Qed.

Section Growth.

Lemma grown_refl c : grown c c.
Proof. by repeat split. Qed.

Lemma grown_trans c1 c2 c3 : grown c1 c2 → grown c2 c3 → grown c1 c3.
Proof.
  intros (He & Hc & Hd) (He' & Hc' & Hd'). repeat split; auto.
  by etrans.
Qed.

Lemma keeps_only_adds {A} (m : Op A) : keeps_session m → only_adds m.
Proof.
  intros Hm w. specialize (Hm w). unfold session_fields in Hm.
  injection Hm as He Hc Hconn _ _ _. unfold grown.
  rewrite He, Hc, Hconn. apply grown_refl.
Qed.

Lemma only_adds_callbacks {A B} (m : Op A) (cb : A → Op B) eb :
  only_adds m → (∀ a, only_adds (cb a)) → (∀ e, only_adds (eb e)) →
  only_adds (callbacks m cb eb).
Proof.
  intros Hm Hcb Heb w. unfold callbacks. specialize (Hm w).
  destruct (m w) as [[a|e| |] w']; simpl in Hm; try done.
  - eapply grown_trans; [exact Hm | apply Hcb].
  - eapply grown_trans; [exact Hm | apply Heb].
Qed.

Lemma only_adds_bind {A B} (m : Op A) (k : A → Op B) :
  only_adds m → (∀ a, only_adds (k a)) → only_adds (m ≫= k).
Proof.
  intros. apply only_adds_callbacks; auto.
  intros e. apply keeps_only_adds, keeps_emitError.
Qed.

Lemma only_adds_assign f :
  (∀ c, grown c (f c)) → only_adds (assign f).
Proof. intros Hf w. apply Hf. Qed.

(** Parsing a reply never removes a capability. *)
Lemma parseCapabilities_dom (caps : gmap string CapValue) lines :
  dom caps ⊆ dom (parseCapabilities caps lines).
Proof. rewrite parseCapabilities_union, dom_union. set_solver. Qed.

Lemma only_adds_hello verb :
  only_adds (λ w,
    addCallback (send [verb; joined (host (client w))]) (λ packet,
      if loose_eq (Packet.status packet) "250" then
        assign (λ c, with_capabilities
                       (parseCapabilities (capabilities c) (Packet.data packet)) c);;
        assign (with_connected true);;
        emitSuccess packet
      else emitError (Some packet)) w).
Proof.
  intros w. apply only_adds_callbacks.
  - apply keeps_only_adds, keeps_send.
  - intros packet. destruct (loose_eq (Packet.status packet) "250").
    + repeat (apply only_adds_callbacks; intros);
        try (apply keeps_only_adds; by intros ?).
      * apply only_adds_assign. intros c. repeat split; try done.
        apply parseCapabilities_dom.
      * apply only_adds_assign. intros c. by repeat split.
    + apply keeps_only_adds. by intros ?.
  - intros e. apply keeps_only_adds. by intros ?.
Qed.

Lemma only_adds_handshake : only_adds handshake.
Proof.
  intros w. unfold handshake.
  destruct (esmtp (client w));
    [apply (only_adds_hello "EHLO") | apply (only_adds_hello "HELO")].
Qed.

End Growth.

(** X12: [connect] and the handshakes only add to the session: whatever the
    world and the outcome, a raised [esmtp] or [connected] flag is never
    cleared and no recorded capability is ever removed; taken with the
    commands that leave the session alone, no operation of the client
    takes anything back, not even [quit] or a new [connect]. *)
Theorem session_only_grows port' host' :
  only_adds helo ∧ only_adds ehlo ∧ only_adds handshake
  ∧ only_adds (connect port' host').
Proof.
  split; [apply (only_adds_hello "HELO")|].
  split; [apply (only_adds_hello "EHLO")|].
  split; [apply only_adds_handshake|].
  unfold connect.
  apply only_adds_bind;
    [apply only_adds_assign; intros c; by repeat split | intros _].
  apply only_adds_bind;
    [apply only_adds_assign; intros c; by repeat split | intros _].
  apply only_adds_bind; [apply keeps_only_adds, keeps_next_packet | intros packet].
  destruct (loose_eq (Packet.status packet) "220");
    [|apply keeps_only_adds, keeps_emitError].
  apply only_adds_bind.
  - destruct (Js.test_i "ESMTP" (Js.join "," (Packet.data packet)));
      [|apply keeps_only_adds, keeps_emitSuccess].
    apply only_adds_assign. intros c. by repeat split.
  - intros _. apply only_adds_callbacks.
    + apply only_adds_handshake.
    + intros _. apply keeps_only_adds, keeps_emitSuccess.
    + intros _. apply keeps_only_adds, keeps_unheard.
Qed.

(** ** More on capabilities *)

(** X13: Handling the same handshake reply a second time changes nothing. *)
Theorem parseCapabilities_idempotent (caps : gmap string CapValue) lines :
  parseCapabilities (parseCapabilities caps lines) lines
  = parseCapabilities caps lines.
Proof.
  rewrite (parseCapabilities_union (parseCapabilities caps lines)).
  rewrite (parseCapabilities_union caps).
  by rewrite (assoc_L (∪)), (idemp_L (∪)).
Qed.

Lemma split_shape sep s :
  ∃ key, occurrences sep key = 0
    ∧ ((s = key ∧ Js.split sep s = [key])
       ∨ ∃ tail, s = key +:+ String sep tail
                 ∧ Js.split sep s = key :: Js.split sep tail).
Proof.
  induction s as [|c s (key & Hkey & IH)].
  - exists EmptyString. split; [done|]. by left.
  - simpl. destruct (Ascii.eqb_spec c sep) as [->|Hne].
    + exists EmptyString. split; [done|]. right. by exists s.
    + exists (String c key). split.
      { simpl. by rewrite (proj2 (Ascii.eqb_neq c sep) Hne). }
      destruct IH as [[-> ->] | (tail & -> & ->)]; [by left|].
      right. by exists tail.
Qed.

(** X14: What one reply line contributes.  The property assigned is the text
    before the first space of the line (the whole line when it has no
    space; the empty name when the line is empty or starts with a space);
    the value is [true] exactly when the line has no space, and otherwise
    the line itself. *)
Theorem capability_of_line (caps : gmap string CapValue) line :
  ∃ key, occurrences " " key = 0
    ∧ ((line = key
        ∧ parseCapability caps line = set_property key CapTrue caps)
       ∨ ∃ tail, line = key +:+ " " +:+ tail
           ∧ parseCapability caps line = set_property key (CapText line) caps).
Proof.
  destruct (split_shape " " line) as (key & Hkey & Hshape).
  exists key. split; [done|]. unfold parseCapability.
  rewrite (join_split " " line).
  destruct Hshape as [[Hl ->] | (tail & Hl & ->)]; [by left|].
  right. exists tail. split; [done|].
  destruct (Js.split " " tail) eqn:E; [by apply split_not_nil in E | done].
Qed.

Lemma foldl_parseCapability_lookup ls (caps : gmap string CapValue) k :
  k ≠ "__proto__" →
  foldl parseCapability caps ls !! k
  = match last (filter (λ l, item0 (Js.split " " l) = k) ls) with
    | Some l =>
        Some (if (1 <? List.length (Js.split " " l))%nat
              then CapText l else CapTrue)
    | None => caps !! k
    end.
Proof.
  intros Hk. induction ls as [|l ls IH] using rev_ind; [done|].
  rewrite foldl_app, filter_app. simpl.
  unfold parseCapability at 1, set_property.
  rewrite (join_split " " l).
  destruct (String.eqb_spec (item0 (Js.split " " l)) "__proto__") as [Hp|Hp].
  - rewrite IH. rewrite filter_cons_False by congruence.
    by rewrite filter_nil, app_nil_r.
  - destruct (decide (item0 (Js.split " " l) = k)) as [Heq|Hne].
    + rewrite filter_cons_True, filter_nil by done.
      rewrite last_snoc, Heq. apply lookup_insert_eq.
    + rewrite filter_cons_False, filter_nil, app_nil_r by done.
      by rewrite lookup_insert_ne.
Qed.

(** X15: Reading a capability after a handshake reply was parsed.  Among the
    lines after the first whose keyword is the name asked for, the last
    one decides: the value is that whole line when it has more than one
    token and [true] otherwise.  When no such line exists, the entry is
    what it was before, present or absent. *)
Theorem parseCapabilities_lookup (caps : gmap string CapValue) lines k :
  k ≠ "__proto__" →
  parseCapabilities caps lines !! k
  = match last (filter (λ l, item0 (Js.split " " l) = k) (drop 1 lines)) with
    | Some l =>
        Some (if (1 <? List.length (Js.split " " l))%nat
              then CapText l else CapTrue)
    | None => caps !! k
    end.
Proof. apply foldl_parseCapability_lookup. Qed.

Lemma parseCapabilities_lookup_witness :
  parseCapabilities {[ "AUTH" := CapText "AUTH PLAIN" ]}
    ["mx.test"; "SIZE 100"; "8BITMIME"; "SIZE 200"] !! "SIZE"
  = Some (CapText "SIZE 200")
  ∧ parseCapabilities {[ "AUTH" := CapText "AUTH PLAIN" ]}
      ["mx.test"; "SIZE 100"; "8BITMIME"; "SIZE 200"] !! "AUTH"
    = Some (CapText "AUTH PLAIN").
Proof.
  split.
  - etrans; [apply (parseCapabilities_lookup _ _ "SIZE"); discriminate|].
    vm_compute. reflexivity.
  - etrans; [apply (parseCapabilities_lookup _ _ "AUTH"); discriminate|].
    vm_compute. reflexivity.
Defined.

(** ** The test of the greeting *)

Section Greeting.

Lemma upcase_string_app s t :
  Js.upcase_string (s +:+ t) = Js.upcase_string s +:+ Js.upcase_string t.
Proof. induction s as [|c s IH]; simpl; [done|]. by rewrite IH. Qed.

(** A needle free of the character [c] cannot begin before a [c] and end
    after it. *)
Lemma prefix_app_sep needle x c b :
  occurrences c needle = 0 →
  String.prefix needle (x +:+ String c b) = String.prefix needle x.
Proof.
  revert x. induction needle as [|e needle IH]; intros x Hfree.
  - by destruct x.
  - simpl in Hfree.
    destruct (Ascii.eqb_spec e c) as [->|Hne]; [done|].
    destruct x as [|d x]; simpl.
    + by destruct (ascii_dec e c).
    + destruct (ascii_dec e d); [|done]. by apply IH.
Qed.

Lemma contains_app_sep needle a c b :
  needle ≠ EmptyString → occurrences c needle = 0 →
  Js.contains needle (a +:+ String c b)
  = Js.contains needle a || Js.contains needle b.
Proof.
  intros Hne Hfree. induction a as [|d a IH].
  - change (EmptyString +:+ String c b) with (String c b).
    rewrite (contains_unfold needle (String c b)),
      (contains_unfold needle EmptyString).
    rewrite <- (prefix_app_sep needle EmptyString c b Hfree).
    change (EmptyString +:+ String c b) with (String c b).
    destruct needle; [done|]. simpl. by rewrite orb_false_r.
  - change (String d a +:+ String c b) with (String d (a +:+ String c b)).
    rewrite (contains_unfold needle (String d (a +:+ String c b))),
      (contains_unfold needle (String d a)), IH.
    change (String d (a +:+ String c b)) with (String d a +:+ String c b).
    by rewrite (prefix_app_sep _ _ _ _ Hfree), orb_assoc.
Qed.

Lemma upcase_string_app_inv s x y :
  Js.upcase_string s = x +:+ y →
  ∃ s1 s2, s = s1 +:+ s2 ∧ Js.upcase_string s1 = x ∧ Js.upcase_string s2 = y.
Proof.
  revert s. induction x as [|c x IH]; intros s Hs.
  - by exists EmptyString, s.
  - destruct s as [|d s]; [done|]. simpl in Hs. injection Hs as Hc Hs.
    destruct (IH s Hs) as (s1 & s2 & -> & H1 & H2).
    exists (String d s1), s2. simpl. by rewrite Hc, H1, H2.
Qed.

End Greeting.

(** X16: The greeting test [/ESMTP/i.test(packet.data)] is applied to the
    array of lines, that is to the lines joined by commas.  It holds
    exactly when one of the lines passes it by itself, and a text passes
    it exactly when it has five consecutive characters that are the
    letters E S M T P in either case. *)
Theorem esmtp_test_per_line lines s :
  Js.test_i "ESMTP" (Js.join "," lines) = existsb (Js.test_i "ESMTP") lines
  ∧ (Js.test_i "ESMTP" s = true
     ↔ ∃ pre mid post, s = pre +:+ mid +:+ post
         ∧ Js.upcase_string mid = "ESMTP").
Proof.
  split.
  - unfold Js.test_i. induction lines as [|l [|l' ls] IH].
    + done.
    + simpl. by rewrite orb_false_r.
    + change (Js.join "," (l :: l' :: ls))
        with (l +:+ String "," (Js.join "," (l' :: ls))).
      rewrite upcase_string_app.
      change (Js.upcase_string (String "," (Js.join "," (l' :: ls))))
        with (String "," (Js.upcase_string (Js.join "," (l' :: ls)))).
      rewrite contains_app_sep by done. rewrite IH. done.
  - unfold Js.test_i. rewrite contains_spec. split.
    + intros (pre' & post' & Hs).
      apply upcase_string_app_inv in Hs as (pre & rest & -> & _ & Hrest).
      apply upcase_string_app_inv in Hrest as (mid & post & -> & Hmid & _).
      by exists pre, mid, post.
    + intros (pre & mid & post & -> & Hmid).
      exists (Js.upcase_string pre), (Js.upcase_string post).
      by rewrite !upcase_string_app, Hmid.
Qed.

(** ** The legacy [get] *)

(** X17: [get line callback] writes the line and CRLF as one chunk and hands
    the next packet to the callback, which runs while [waiting] is still
    raised and after the packet was consumed; [waiting] is cleared once
    the callback has returned, whatever the callback did to it.  With a
    callback that does nothing, [get] leaves the world exactly as [send]
    with the same words does. *)
Theorem get_runs_callback_then_clears w s p rest line callback arguments :
  socket (client w) = Some s → inbox w = p :: rest →
  get line callback w
  = (Success tt,
     set_client (with_waiting false)
       (callback p
          {| client := with_waiting true
                         (with_socket (Some (sent (line +:+ CRLF) s)) (client w));
             inbox := rest; flow := tl (flow w) |}))
  ∧ (get (Js.join " " arguments) (λ _ w', w') w).2 = (send arguments w).2.
Proof.
  intros Hs Hi. rewrite (send_run _ _ _ _ _ Hs Hi).
  open_world w. unfold get, writeline, socket_write, next_packet. by run_op.
Qed.

Lemma get_runs_callback_then_clears_witness :
  waiting (client (get "NOOP" (λ _, set_client (with_waiting true))
                     (session "client.test" [reply "250" ["OK"]])).2) = false
  ∧ socket (client (get "NOOP" (λ _, set_client (with_waiting true))
                      (session "client.test" [reply "250" ["OK"]])).2)
    = Some {| written := ["NOOP" +:+ CRLF]; ended := false |}.
Proof.
  destruct (get_runs_callback_then_clears
    (session "client.test" [reply "250" ["OK"]])
    {| written := []; ended := false |} (reply "250" ["OK"]) []
    "NOOP" (λ _, set_client (with_waiting true)) ["NOOP"] eq_refl eq_refl)
    as [Hrun _].
  split; by rewrite Hrun.
Defined.

(** ** More on the composite DATA *)

(** X18: Backpressure with no relief: when DATA was answered by 354 but the
    write of the payload was queued and the transport never drains, the
    terminator is never written, the reply that follows is not consumed,
    and the promise of [data] never fires. *)
Theorem data_blocked_by_backpressure w s payload p1 rest1 :
  socket (client w) = Some s → inbox w = p1 :: rest1 →
  loose_eq (Packet.status p1) "354" = true →
  hd Flushed (tl (flow w)) = Queued false →
  (data payload w).1 = Pending
  ∧ socket (client (data payload w).2)
    = Some {| written := written s ++ ["DATA" +:+ CRLF; payload];
              ended := ended s |}
  ∧ inbox (data payload w).2 = rest1.
Proof.
  intros Hs Hi H354 Hflow.
  rewrite (data_after_354 _ _ _ _ _ Hs Hi H354), Hflow. simpl.
  unfold sent. simpl. by rewrite <- app_assoc.
Qed.

Lemma data_blocked_by_backpressure_witness :
  (data "body" {| client := client (session "client.test" []);
                  inbox := [reply "354" ["Go"]; reply "250" ["OK"]];
                  flow := [Flushed; Queued false] |}).1 = Pending
  ∧ inbox (data "body" {| client := client (session "client.test" []);
                          inbox := [reply "354" ["Go"]; reply "250" ["OK"]];
                          flow := [Flushed; Queued false] |}).2
    = [reply "250" ["OK"]].
Proof.
  destruct (data_blocked_by_backpressure
    {| client := client (session "client.test" []);
       inbox := [reply "354" ["Go"]; reply "250" ["OK"]];
       flow := [Flushed; Queued false] |}
    {| written := []; ended := false |} "body"
    (reply "354" ["Go"]) [reply "250" ["OK"]]
    eq_refl eq_refl eq_refl eq_refl) as (Hp & _ & Hin).
  exact (conj Hp Hin).
Defined.

Lemma mail_run w s p rest address :
  socket (client w) = Some s → inbox w = p :: rest →
  mail address w
  = (if loose_eq (Packet.status p) "250" then Success p else Failure (Some p),
     {| client := with_waiting false
          (with_socket (Some (sent ("MAIL FROM: <" +:+ address +:+ ">" +:+ CRLF) s))
             (client w));
        inbox := rest; flow := tl (flow w) |}).
Proof.
  intros Hs Hi. unfold mail, addCallback, callbacks.
  rewrite (send_run _ _ _ _ _ Hs Hi). simpl. rewrite append_assoc.
  by destruct (loose_eq (Packet.status p) "250").
Qed.

Lemma rcpt_run w s p rest address :
  socket (client w) = Some s → inbox w = p :: rest →
  rcpt address w
  = (if loose_eq (Packet.status p) "250" then Success p else Failure (Some p),
     {| client := with_waiting false
          (with_socket (Some (sent ("RCPT TO: <" +:+ address +:+ ">" +:+ CRLF) s))
             (client w));
        inbox := rest; flow := tl (flow w) |}).
Proof.
  intros Hs Hi. unfold rcpt, addCallback, callbacks.
  rewrite (send_run _ _ _ _ _ Hs Hi). simpl. rewrite append_assoc.
  by destruct (loose_eq (Packet.status p) "250").
Qed.

(** ** What a failure carries *)

Lemma send_outcome arguments w :
  (send arguments w).1 = Thrown ∨ (send arguments w).1 = Pending
  ∨ ∃ p, head (inbox w) = Some p ∧ (send arguments w).1 = Success p.
Proof.
  destruct (socket (client w)) as [s|] eqn:Hs;
    [|left; by rewrite (send_null _ _ Hs)].
  destruct (inbox w) as [|p rest] eqn:Hi.
  - right; left. by rewrite (send_silent _ _ _ Hs Hi).
  - right; right. exists p. by rewrite (send_run _ _ _ _ _ Hs Hi).
Qed.

(** X19: In every world, when the promise of HELO, EHLO, MAIL, RCPT or of the
    DATA stages fails, the error value is the reply packet that was next
    in line; when the promise of the composite [data] fails, it is one of
    the next two; and when the promise of [quit] fails, the error value is
    absent. *)
Theorem failures_carry_the_reply w address payload e :
  ((helo w).1 = Failure e → e = head (inbox w) ∧ e ≠ None)
  ∧ ((ehlo w).1 = Failure e → e = head (inbox w) ∧ e ≠ None)
  ∧ ((mail address w).1 = Failure e → e = head (inbox w) ∧ e ≠ None)
  ∧ ((rcpt address w).1 = Failure e → e = head (inbox w) ∧ e ≠ None)
  ∧ ((beginData w).1 = Failure e → e = head (inbox w) ∧ e ≠ None)
  ∧ ((endData w).1 = Failure e → e = head (inbox w) ∧ e ≠ None)
  ∧ ((data payload w).1 = Failure e →
     ∃ p, e = Some p ∧ p ∈ take 2 (inbox w))
  ∧ ((quit w).1 = Failure e → e = None).
Proof.
  assert (∀ (A : Type) (args : list string) (cb : Packet.t → Op A) w,
            (∀ p w', (cb p w').1 = Failure e → e = Some p) →
            (addCallback (send args) cb w).1 = Failure e →
            e = head (inbox w) ∧ e ≠ None) as Hone.
  { intros A args cb w0 Hcb. unfold addCallback, callbacks.
    destruct (socket (client w0)) as [s|] eqn:Hs;
      [|by rewrite (send_null _ _ Hs)].
    destruct (inbox w0) as [|p rest] eqn:Hi;
      [by rewrite (send_silent _ _ _ Hs Hi)|].
    rewrite (send_run _ _ _ _ _ Hs Hi). intros H%Hcb. by subst. }
  split; [|split; [|split; [|split; [|split; [|split; [|split]]]]]].
  1-6: apply Hone; intros p w'; destruct (loose_eq _ _); simpl; congruence.
  - destruct (socket (client w)) as [s|] eqn:Hs.
    2:{ unfold data, callbacks, beginData, addCallback, callbacks.
        by rewrite (send_null _ _ Hs). }
    destruct (inbox w) as [|p1 rest1] eqn:Hi.
    { unfold data, callbacks, beginData, addCallback, callbacks.
      by rewrite (send_silent _ _ _ Hs Hi). }
    destruct (loose_eq (Packet.status p1) "354") eqn:H354.
    + rewrite (data_after_354 _ _ _ _ _ Hs Hi H354).
      destruct (hd Flushed (tl (flow w))) as [|[]]; try done.
      all: unfold callbacks; destruct rest1 as [|p2 rest];
        [ by erewrite send_silent_endData by reflexivity
        | erewrite endData_run by reflexivity;
          destruct (loose_eq (Packet.status p2) "250"); simpl; [done|];
          intros [= <-]; exists p2; split; [done|]; simpl;
          repeat constructor ].
    + unfold data, callbacks. rewrite (beginData_run _ _ _ _ Hs Hi), H354.
      simpl. intros [= <-]. exists p1. split; [done|].
      destruct rest1; simpl; constructor.
  - unfold quit, addCallback, callbacks.
    destruct (send_outcome ["QUIT"] w) as [H | [H | (p & _ & H)]];
      destruct (send ["QUIT"] w) as [o w'] eqn:E; simpl in H; subst o;
      try done.
    destruct (loose_eq (Packet.status p) "221"); [|simpl; congruence].
    unfold socket_end. run_op. by destruct (socket (client w')).
Qed.

Lemma failures_carry_the_reply_witness :
  Some (reply "500" ["Syntax error"])
  = head (inbox (session "client.test" [reply "500" ["Syntax error"]])).
Proof.
  pose proof (failures_carry_the_reply
    (session "client.test" [reply "500" ["Syntax error"]])
    "user@example.com" "body" (Some (reply "500" ["Syntax error"])))
    as (_ & _ & Hmail & _).
  exact (proj1 (Hmail eq_refl)).
Defined.

(** ** A whole delivery *)

(** X20: The operations in sequence.  With the replies 220, 250, 250, 250, 354,
    250 and 221 arriving in this order and a transport that flushes every
    write, [connect], [mail], [rcpt], [data] and [quit] all succeed, the
    replies are used up one per command (two for [data]), and what was
    written to the socket is exactly: the handshake line, the MAIL line,
    the RCPT line, the DATA line, the payload, the terminator and the QUIT
    line, after which the socket was ended. *)
Theorem whole_delivery w g e m r d1 d2 q port' host' sender recipient payload :
  inbox w = [g; e; m; r; d1; d2; q] → flow w = [] →
  loose_eq (Packet.status g) "220" = true →
  loose_eq (Packet.status e) "250" = true →
  loose_eq (Packet.status m) "250" = true →
  loose_eq (Packet.status r) "250" = true →
  loose_eq (Packet.status d1) "354" = true →
  loose_eq (Packet.status d2) "250" = true →
  loose_eq (Packet.status q) "221" = true →
  let w1 := (connect port' host' w).2 in
  let w2 := (mail sender w1).2 in
  let w3 := (rcpt recipient w2).2 in
  let w4 := (data payload w3).2 in
  let w5 := (quit w4).2 in
  (connect port' host' w).1 = Success g
  ∧ (mail sender w1).1 = Success m
  ∧ (rcpt recipient w2).1 = Success r
  ∧ (data payload w3).1 = Success tt
  ∧ (quit w4).1 = Success tt
  ∧ socket (client w5)
    = Some {| written :=
                [(if Js.test_i "ESMTP" (Js.join "," (Packet.data g))
                     || esmtp (client w)
                  then "EHLO " else "HELO ") +:+ host' +:+ CRLF;
                 "MAIL FROM: <" +:+ sender +:+ ">" +:+ CRLF;
                 "RCPT TO: <" +:+ recipient +:+ ">" +:+ CRLF;
                 "DATA" +:+ CRLF;
                 payload;
                 CRLF +:+ "." +:+ CRLF;
                 "QUIT" +:+ CRLF];
              ended := true |}
  ∧ inbox w5 = []
  ∧ connected (client w5) = true
  ∧ capabilities (client w5)
    = parseCapabilities (capabilities (client w)) (Packet.data e).
Proof.
  intros Hi Hf Hg He Hm Hr Hd1 Hd2 Hq w1 w2 w3 w4 w5.
  assert (connect port' host' w
          = (Success g,
             {| client :=
                  {| socket :=
                       Some {| written :=
                                 [(if Js.test_i "ESMTP" (Js.join "," (Packet.data g))
                                      || esmtp (client w)
                                   then "EHLO " else "HELO ") +:+ host' +:+ CRLF];
                               ended := false |};
                     esmtp := Js.test_i "ESMTP" (Js.join "," (Packet.data g))
                              || esmtp (client w);
                     capabilities :=
                       parseCapabilities (capabilities (client w)) (Packet.data e);
                     debug := debug (client w);
                     port := Some port'; host := Some host';
                     connected := true; waiting := false |};
                inbox := [m; r; d1; d2; q]; flow := [] |})) as Hconnect.
  { rewrite (connect_greeting _ _ _ _ _ Hi Hg).
    unfold addCallback, callbacks, handshake. cbn [client esmtp].
    destruct (Js.test_i "ESMTP" (Js.join "," (Packet.data g)) || esmtp (client w));
      [erewrite ehlo_run by reflexivity | erewrite helo_run by reflexivity];
      rewrite He, Hf; simpl; by rewrite orb_true_r. }
  subst w5 w4 w3 w2 w1. rewrite Hconnect. cbn [fst snd].
  erewrite mail_run by reflexivity. rewrite Hm. cbn [fst snd].
  erewrite rcpt_run by reflexivity. rewrite Hr. cbn [fst snd].
  erewrite data_after_354 by (reflexivity || exact Hd1). cbn [flow tl hd].
  unfold callbacks.
  erewrite endData_run by reflexivity. rewrite Hd2. cbn [fst snd emitSuccess].
  erewrite quit_run by reflexivity. rewrite Hq. by repeat split.
Qed.

Lemma whole_delivery_witness :
  socket (client (quit (data "Subject: hi"
    (rcpt "rcpt@example.com" (mail "user@example.com"
      (connect 25 "client.test" (fresh
         [reply "220" ["mx.test ESMTP ready"]; reply "250" ["mx.test"; "8BITMIME"];
          reply "250" ["OK"]; reply "250" ["OK"]; reply "354" ["Go ahead"];
          reply "250" ["Queued"]; reply "221" ["Bye"]])).2).2).2).2).2)
  = Some {| written :=
              ["EHLO client.test" +:+ CRLF;
               "MAIL FROM: <user@example.com>" +:+ CRLF;
               "RCPT TO: <rcpt@example.com>" +:+ CRLF;
               "DATA" +:+ CRLF;
               "Subject: hi";
               CRLF +:+ "." +:+ CRLF;
               "QUIT" +:+ CRLF];
            ended := true |}.
Proof.
  pose proof (whole_delivery
    (fresh
       [reply "220" ["mx.test ESMTP ready"]; reply "250" ["mx.test"; "8BITMIME"];
        reply "250" ["OK"]; reply "250" ["OK"]; reply "354" ["Go ahead"];
        reply "250" ["Queued"]; reply "221" ["Bye"]])
    (reply "220" ["mx.test ESMTP ready"]) (reply "250" ["mx.test"; "8BITMIME"])
    (reply "250" ["OK"]) (reply "250" ["OK"]) (reply "354" ["Go ahead"])
    (reply "250" ["Queued"]) (reply "221" ["Bye"])
    25 "client.test" "user@example.com" "rcpt@example.com" "Subject: hi"
    eq_refl eq_refl eq_refl eq_refl eq_refl eq_refl eq_refl eq_refl eq_refl)
    as (_ & _ & _ & _ & _ & Hsocket & _).
  exact Hsocket.
Defined.
